(** * senkloud media server: range streaming, codec classifier, streaming
      tokens, episode parser and series index

    A shallow embedding of the algorithmic core of [senkloud-frontend/app.py]
    and the properties its specification states about it, followed by
    further properties of that code and of the functions around it: upload
    checks, folder thumbnails, stream selection and user ids.

    Modelling conventions.
    - A Python [str] is a Stdlib [string]; the regular-expression engine and
      the character-level helpers work on [list ascii].  Characters are the
      8-bit [ascii] type: the Unicode-aware classes of Python ([\d], [\s],
      [str.lower], [str.isdigit], [str.strip]) are restricted to their
      behaviour on ASCII.
    - A Python [int] is a [Z], without the interpreter's configurable cap
      on the number of digits [int()] and [str()] convert; [bytes] is a
      [list byte].
    - [time.time()] readings are integers of some fixed unit.
    - A Python exception is an explicit [Raise] result; the only one the
      modelled functions raise themselves is [AttributeError], for a method
      called on [None].  A file that cannot be read is an absent content,
      which [stream_file_with_ranges] turns into [abort(500)]. *)

From Stdlib Require Import ZArith String Ascii List DecimalString Decimal DecimalPos.
From Stdlib.Strings Require Import Byte.
From stdpp Require Import gmap strings list fin_maps.
Import ListNotations.
Open Scope Z_scope.

(** ** Python results and exceptions *)

Inductive exn := AttributeError.

Inductive res (A : Type) :=
  | Ret (a : A)
  | Raise (e : exn).
Arguments Ret {A} a.
Arguments Raise {A} e.

Definition res_bind {A B} (x : res A) (f : A -> res B) : res B :=
  match x with
  | Ret a => f a
  | Raise e => Raise e
  end.

Notation "'let*' x := c1 'in' c2" := (res_bind c1 (fun x => c2))
  (at level 10, x name, c1 at level 100, c2 at level 200).

(** ** Characters and strings *)

Definition chars (s : string) : list ascii := list_ascii_of_string s.
Definition pystr (cs : list ascii) : string := string_of_list_ascii cs.

Definition code (c : ascii) : N := N_of_ascii c.

(** [\d], [[0-9]] and [str.isdigit] on one character. *)
Definition is_digit (c : ascii) : bool :=
  ((48 <=? code c) && (code c <=? 57))%N.

(** [\s] and the characters [str.strip()] removes: TAB, LF, VT, FF, CR,
    the separators 0x1c..0x1f and the space. *)
Definition is_space (c : ascii) : bool :=
  (((9 <=? code c) && (code c <=? 13)) || ((28 <=? code c) && (code c <=? 32)))%N.

Definition newline : ascii := "010"%char.

Definition lower_char (c : ascii) : ascii :=
  if ((65 <=? code c) && (code c <=? 90))%N then ascii_of_N (code c + 32) else c.

(** [s.lower()] *)
Definition lower (s : string) : string := pystr (map lower_char (chars s)).

Fixpoint lstrip_chars (cs : list ascii) : list ascii :=
  match cs with
  | c :: cs' => if is_space c then lstrip_chars cs' else cs
  | [] => []
  end.

Definition strip_chars (cs : list ascii) : list ascii :=
  rev (lstrip_chars (rev (lstrip_chars cs))).

(** [s.strip()] *)
Definition strip (s : string) : string := pystr (strip_chars (chars s)).

(** [s.replace(a, b)] for single characters. *)
Definition replace_char (a b : ascii) (s : string) : string :=
  pystr (map (fun c => if Ascii.eqb c a then b else c) (chars s)).

(** Truthiness of a string: [if s:]. *)
Definition nonempty (s : string) : bool :=
  match s with
  | EmptyString => false
  | String _ _ => true
  end.

(** [a or b] on strings. *)
Definition str_or (a b : string) : string := if nonempty a then a else b.

Fixpoint is_prefix (p s : list ascii) : bool :=
  match p, s with
  | [], _ => true
  | a :: p', b :: s' => Ascii.eqb a b && is_prefix p' s'
  | _ :: _, [] => false
  end.

Fixpoint contains_chars (p s : list ascii) : bool :=
  is_prefix p s ||
  match s with
  | [] => false
  | _ :: s' => contains_chars p s'
  end.

(** [p in s] on strings. *)
Definition str_in (p s : string) : bool := contains_chars (chars p) (chars s).

(** [x in l] for a list of strings. *)
Definition mem (x : string) (l : list string) : bool :=
  existsb (String.eqb x) l.

(** [str(n)]: the decimal rendering, with a leading [-] below zero. *)
Definition str (n : Z) : string := NilZero.string_of_int (Z.to_int n).

Definition digit_val (c : ascii) : Z := Z.of_N (code c) - 48.

Definition int_chars (cs : list ascii) : Z :=
  fold_left (fun acc c => 10 * acc + digit_val c) cs 0.

(** [int(s)] on a run of decimal digits, most significant first.  The
    program applies [int] only to groups matched by [\d+] and to the
    digit runs of [re.split], on which it cannot raise. *)
Definition int (s : string) : Z := int_chars (chars s).

(** ** Regular expressions

    The part of Python's [re] the program uses: a pattern is a sequence of
    nodes, matched left to right by backtracking.  Repetition applies to
    one character class; a group is delimited by [Open]/[Close] marks. *)

Inductive cls :=
  | CAny                     (* [.]: any character but a newline *)
  | CDigit                   (* [\d], [[0-9]] *)
  | CSpace                   (* [\s] *)
  | CLit (c : ascii)         (* a literal character *)
  | CSet (l : list ascii).   (* [[...]] *)

Inductive quant := Greedy | Lazy.

Inductive node :=
  | One (c : cls)
  | Rep (c : cls) (lo : nat) (hi : option nat) (q : quant)
  | Open (g : nat)
  | Close (g : nat)
  | Alt (alts : list string)   (* (a|b|...) over literal words *)
  | Eos.                       (* [$] *)

Definition regex := list node.

(** Group marks recorded along one path of the search, latest first. *)
Record caps := { starts : list (nat * nat); ends : list (nat * nat) }.

Definition no_caps : caps := {| starts := []; ends := [] |}.

Definition open_group (g pos : nat) (c : caps) : caps :=
  {| starts := (g, pos) :: starts c; ends := ends c |}.

Definition close_group (g pos : nat) (c : caps) : caps :=
  {| starts := starts c; ends := (g, pos) :: ends c |}.

Fixpoint assoc (g : nat) (l : list (nat * nat)) : option nat :=
  match l with
  | [] => None
  | (g', p) :: l' => if (g =? g')%nat then Some p else assoc g l'
  end.

Definition hi_ok (hi : option nat) : bool :=
  match hi with
  | Some O => false
  | _ => true
  end.

Definition hi_pred (hi : option nat) : option nat :=
  match hi with
  | Some n => Some (pred n)
  | None => None
  end.

Section Matcher.
(** [re.IGNORECASE] *)
Variable ic : bool.

Definition char_eq (a b : ascii) : bool :=
  if ic then Ascii.eqb (lower_char a) (lower_char b) else Ascii.eqb a b.

Definition cls_match (c : cls) (a : ascii) : bool :=
  match c with
  | CAny => negb (Ascii.eqb a newline)
  | CDigit => is_digit a
  | CSpace => is_space a
  | CLit b => char_eq b a
  | CSet l => existsb (fun b => char_eq b a) l
  end.

Fixpoint lit_prefix (w s : list ascii) : bool :=
  match w, s with
  | [], _ => true
  | a :: w', b :: s' => char_eq a b && lit_prefix w' s'
  | _ :: _, [] => false
  end.

(** [$]: at the end of the subject, or just before a final newline. *)
Definition at_end (s : list ascii) : bool :=
  match s with
  | [] => true
  | [a] => Ascii.eqb a newline
  | _ => false
  end.

Definition outcome := (nat * caps)%type.

(** Greedy repetition: take one more character while allowed, fall back
    to the continuation [k] once at least [lo] were taken. *)
Fixpoint rep_greedy (p : ascii -> bool) (k : list ascii -> nat -> option outcome)
    (lo : nat) (hi : option nat) (s : list ascii) (pos : nat) : option outcome :=
  let more :=
    match s with
    | a :: s' =>
        if p a && hi_ok hi
        then rep_greedy p k (pred lo) (hi_pred hi) s' (S pos)
        else None
    | [] => None
    end in
  match more with
  | Some r => Some r
  | None => if (lo =? 0)%nat then k s pos else None
  end.

(** Lazy repetition: try the continuation first, take one more character
    when it fails. *)
Fixpoint rep_lazy (p : ascii -> bool) (k : list ascii -> nat -> option outcome)
    (lo : nat) (hi : option nat) (s : list ascii) (pos : nat) : option outcome :=
  match (if (lo =? 0)%nat then k s pos else None) with
  | Some r => Some r
  | None =>
      match s with
      | a :: s' =>
          if p a && hi_ok hi
          then rep_lazy p k (pred lo) (hi_pred hi) s' (S pos)
          else None
      | [] => None
      end
  end.

(** [m re s pos c]: match [re] against the suffix [s] of the subject that
    starts at offset [pos]; the result is the end offset and the marks. *)
Fixpoint m (re : regex) (s : list ascii) (pos : nat) (c : caps) {struct re}
    : option outcome :=
  match re with
  | [] => Some (pos, c)
  | One cl :: re' =>
      match s with
      | a :: s' => if cls_match cl a then m re' s' (S pos) c else None
      | [] => None
      end
  | Rep cl lo hi Greedy :: re' =>
      rep_greedy (cls_match cl) (fun s' pos' => m re' s' pos' c) lo hi s pos
  | Rep cl lo hi Lazy :: re' =>
      rep_lazy (cls_match cl) (fun s' pos' => m re' s' pos' c) lo hi s pos
  | Open g :: re' => m re' s pos (open_group g pos c)
  | Close g :: re' => m re' s pos (close_group g pos c)
  | Alt alts :: re' =>
      (fix try (l : list string) : option outcome :=
         match l with
         | [] => None
         | w :: l' =>
             let n := length (chars w) in
             match (if lit_prefix (chars w) s
                    then m re' (drop n s) (pos + n)%nat c else None) with
             | Some r => Some r
             | None => try l'
             end
         end) alts
  | Eos :: re' => if at_end s then m re' s pos c else None
  end.

(** A match object: the span of the whole match and the group marks. *)
Record rmatch := { m_start : nat; m_end : nat; m_caps : caps }.

(** [re.search]: the first offset at which the pattern matches. *)
Fixpoint search_at (re : regex) (s : list ascii) (pos : nat) : option rmatch :=
  match m re s pos no_caps with
  | Some (e, c) => Some {| m_start := pos; m_end := e; m_caps := c |}
  | None =>
      match s with
      | [] => None
      | _ :: s' => search_at re s' (S pos)
      end
  end.

Definition search (re : regex) (s : string) : option rmatch :=
  search_at re (chars s) 0.

(** The spans of the successive non-overlapping matches, left to right
    ([re.finditer]); [skip] counts the characters still inside the last
    match.  The patterns of this program never match the empty string. *)
Fixpoint spans_from (re : regex) (s : list ascii) (pos skip : nat)
    : list (nat * nat) :=
  match skip with
  | S k =>
      match s with
      | [] => []
      | _ :: s' => spans_from re s' (S pos) k
      end
  | O =>
      match m re s pos no_caps with
      | Some (e, _) =>
          (pos, e) ::
          match s with
          | [] => []
          | _ :: s' => spans_from re s' (S pos) (e - pos - 1)%nat
          end
      | None =>
          match s with
          | [] => []
          | _ :: s' => spans_from re s' (S pos) 0%nat
          end
      end
  end.

Definition finditer (re : regex) (s : list ascii) : list (nat * nat) :=
  spans_from re s 0 0.
End Matcher.

(** [s[b:e]] *)
Definition substr (s : list ascii) (b e : nat) : list ascii :=
  take (e - b) (drop b s).

(** [match.group(g)] for a match in [subject]. *)
Definition group (subject : string) (mt : rmatch) (g : nat) : string :=
  match assoc g (starts (m_caps mt)), assoc g (ends (m_caps mt)) with
  | Some b, Some e => pystr (substr (chars subject) b e)
  | _, _ => EmptyString
  end.

(** The text between the matches: before the first, between consecutive
    ones, and after the last. *)
Fixpoint gaps (s : list ascii) (from : nat) (spans : list (nat * nat))
    : list (list ascii) :=
  match spans with
  | [] => [drop from s]
  | (b, e) :: spans' => substr s from b :: gaps s e spans'
  end.

(** [re.sub(re, '', s)] *)
Definition sub_remove (ic : bool) (re : regex) (s : string) : string :=
  pystr (concat (gaps (chars s) 0 (finditer ic re (chars s)))).

(** [re.findall(re, s)] for a pattern without groups. *)
Definition findall (ic : bool) (re : regex) (s : string) : list string :=
  map (fun '(b, e) => pystr (substr (chars s) b e)) (finditer ic re (chars s)).

(** [re.split(re, s)] for a pattern that is one group: the gaps with the
    matched texts in between. *)
Fixpoint interleave (s : list ascii) (from : nat) (spans : list (nat * nat))
    : list (list ascii) :=
  match spans with
  | [] => [drop from s]
  | (b, e) :: spans' => substr s from b :: substr s b e :: interleave s e spans'
  end.

Definition split (ic : bool) (re : regex) (s : string) : list string :=
  map pystr (interleave (chars s) 0 (finditer ic re (chars s))).

(** A literal word as a pattern. *)
Definition lit (w : string) : regex := map (fun c => One (CLit c)) (chars w).

Definition plus (c : cls) : node := Rep c 1 None Greedy.
Definition star (c : cls) : node := Rep c 0 None Greedy.
Definition opt (c : cls) : node := Rep c 0 (Some 1%nat) Greedy.
Definition plus_lazy (c : cls) : node := Rep c 1 None Lazy.
Definition star_lazy (c : cls) : node := Rep c 0 None Lazy.
Definition grp (g : nat) (body : regex) : regex := Open g :: body ++ [Close g].

(** ** Probe results ([get_video_info]) *)

(** One entry of ffprobe's stream list; only [codec_name] is read. *)
Record stream := { codec_name : option string }.

(** The [format] block of ffprobe's output. *)
Record format_block := { format_name : option string; format_filename : option string }.

(** The dictionary [get_video_info] returns.  [video_stream] and
    [audio_stream] hold the first stream of their kind, or [None] when the
    file has none; [duration] is kept as the text [str] gives for it. *)
Record video_info := {
  format : format_block;
  video_stream : option stream;
  audio_stream : option stream;
  duration : string;
  vi_size : Z
}.

(** ** RangeStreamer ([stream_file_with_ranges]) *)

Definition CHUNK_SIZE : Z := 8192 * 4.

(** The pattern [bytes=(\d+)-(\d* )] (without the blank) of the Range header. *)
Definition range_re : regex :=
  lit "bytes=" ++ grp 1 [plus CDigit] ++ lit "-" ++ grp 2 [star CDigit].

(** A header dictionary, in insertion order. *)
Definition dict := list (string * string).

Fixpoint dict_get (k : string) (d : dict) : option string :=
  match d with
  | [] => None
  | (k', v) :: d' => if String.eqb k k' then Some v else dict_get k d'
  end.

(** [d[k] = v] *)
Fixpoint dict_set (k v : string) (d : dict) : dict :=
  match d with
  | [] => [(k, v)]
  | (k', v') :: d' => if String.eqb k k' then (k, v) :: d' else (k', v') :: dict_set k v d'
  end.

(** An open binary file: its content and the read cursor. *)
Record file_obj := { f_data : list byte; f_pos : nat }.

Definition f_open (data : list byte) : file_obj := {| f_data := data; f_pos := 0 |}.

Definition f_seek (off : Z) (f : file_obj) : file_obj :=
  {| f_data := f_data f; f_pos := Z.to_nat off |}.

(** [f.read(n)]: at most [n] bytes from the cursor, which moves past them. *)
Definition f_read (n : Z) (f : file_obj) : list byte * file_obj :=
  let chunk := take (Z.to_nat n) (drop (f_pos f) (f_data f)) in
  (chunk, {| f_data := f_data f; f_pos := f_pos f + length chunk |}).

(** The [while remaining > 0] loop of [generate]; [fuel] bounds the number
    of iterations and [None] means the bound was reached. *)
Fixpoint generate_loop (fuel : nat) (f : file_obj) (remaining : Z)
    : option (list (list byte)) :=
  if remaining >? 0 then
    match fuel with
    | O => None
    | S fuel' =>
        let chunk_size := Z.min CHUNK_SIZE remaining in
        let '(chunk, f') := f_read chunk_size f in
        match chunk with
        | [] => Some []
        | _ :: _ =>
            cons chunk <$>
              generate_loop fuel' f' (remaining - Z.of_nat (length chunk))
        end
    end
  else Some [].

(** The chunks [generate()] yields.  Every iteration that continues lowers
    [remaining] by at least one, so [content_length] iterations suffice. *)
Definition generate (data : list byte) (byte_start content_length : Z)
    : option (list (list byte)) :=
  generate_loop (Z.to_nat content_length) (f_seek byte_start (f_open data))
    content_length.

Record response := {
  status_code : Z;
  headers : dict;
  body : option (list (list byte))
}.

Inductive http_result :=
  | Response (r : response)
  | Abort (status : Z).

(** Truthiness of [request.headers.get('Range', None)]. *)
Definition header_given (h : option string) : bool :=
  match h with
  | Some s => nonempty s
  | None => false
  end.

(** The block [# Parse Range header]: [byte_start] and [byte_end] before
    the clamp, for a file of [size] bytes. *)
Definition requested_range (size : Z) (range_header : option string) : Z * Z :=
  match range_header with
  | Some h =>
      if nonempty h then
        match search false range_re h with
        | Some mt =>
            (int (group h mt 1),
             if nonempty (group h mt 2) then int (group h mt 2) else size - 1)
        | None => (0, size - 1)
        end
      else (0, size - 1)
  | None => (0, size - 1)
  end.

(** [stream_file_with_ranges(file_path, video_info)].  [file] is the content
    of [file_path], [None] when [os.path.getsize] raises; [content_type] is
    the type the extension tables of the function resolve for [file_path];
    [range_header] is [request.headers.get('Range', None)]. *)
Definition stream_file_with_ranges (content_type : string)
    (file : option (list byte)) (range_header : option string)
    (video_info : option video_info) : http_result :=
  match file with
  | None => Abort 500
  | Some data =>
      let size := Z.of_nat (length data) in
      let '(byte_start, byte_end) := requested_range size range_header in
      let byte_end := Z.min byte_end (size - 1) in
      let content_length := byte_end - byte_start + 1 in
      let headers : dict :=
        [ ("Content-Type", content_type);
          ("Accept-Ranges", "bytes");
          ("Content-Length", str content_length);
          ("Cache-Control", "no-cache, no-store, must-revalidate");
          ("Pragma", "no-cache");
          ("Expires", "0") ]%string in
      let '(headers, status_code) :=
        if header_given range_header
        then (dict_set "Content-Range"
                ("bytes " +:+ str byte_start +:+ "-" +:+ str byte_end +:+ "/" +:+ str size)
                headers, 206)
        else (headers, 200) in
      let headers :=
        if str_in "video" content_type
        then dict_set "Content-Disposition" "inline"
               (dict_set "X-Content-Duration"
                  (match video_info with
                   | Some vi => duration vi
                   | None => "0"%string
                   end) headers)
        else headers in
      Response {| status_code := status_code;
                  headers := headers;
                  body := generate data byte_start content_length |}
  end.

(** The bytes a response delivers. *)
Definition body_bytes (r : response) : option (list byte) :=
  (fun chunks => concat chunks) <$> body r.

(** [data[a .. b]], both ends included. *)
Definition slice (data : list byte) (a b : Z) : list byte :=
  take (Z.to_nat (b - a + 1)) (drop (Z.to_nat a) data).

(** The header value [bytes=<start>-<end>]. *)
Definition range_of (start end_ : Z) : string :=
  ("bytes=" +:+ str start +:+ "-" +:+ str end_)%string.


(** ** CodecCompatibilityClassifier ([is_web_compatible]) *)

(** [Config.WEB_COMPATIBLE_CODECS] *)
Definition WEB_COMPATIBLE_video : list string :=
  ["h264"; "avc1"; "vp8"; "vp9"; "av01"]%string.
Definition WEB_COMPATIBLE_audio : list string :=
  ["aac"; "mp3"; "opus"; "vorbis"; "mp4a"]%string.
Definition WEB_COMPATIBLE_containers : list string :=
  ["mp4"; "webm"; "ogg"; "mov"]%string.

(** [d.get(key, '')] on an optional entry. *)
Definition get_str (v : option string) : string := default EmptyString v.

(** [is_web_compatible(video_info)]; the argument is [None] when the probe
    gave no data.  [video_stream.get] raises when the probe found no video
    stream, since [get_video_info] stores [None] under that key. *)
Definition is_web_compatible (video_info : option video_info) : res bool :=
  match video_info with
  | None => Ret false
  | Some vi =>
      let format_name := lower (get_str (format_name (format vi))) in
      let container_compatible :=
        existsb (fun fmt => str_in fmt format_name) WEB_COMPATIBLE_containers in
      match video_stream vi with
      | None => Raise AttributeError
      | Some vs =>
          let video_codec := lower (get_str (codec_name vs)) in
          let video_compatible := mem video_codec WEB_COMPATIBLE_video in
          let audio_codec :=
            match audio_stream vi with
            | Some aus => lower (get_str (codec_name aus))
            | None => "none"%string
            end in
          let audio_compatible :=
            mem audio_codec WEB_COMPATIBLE_audio || String.eqb audio_codec "none" in
          Ret (container_compatible && video_compatible && audio_compatible)
      end
  end.

(** ** StreamingTokenStore *)

Definition STREAM_TOKEN_EXPIRY : Z := 3600.

Record token_data := {
  td_filename : string;
  td_user_id : string;
  expires : Z;
  created : Z
}.

(** The module-level dictionary [streaming_tokens]. *)
Abbreviation token_table := (gmap string token_data).

(** [cleanup_expired_tokens()], run when the clock reads [current_time]. *)
Definition cleanup_expired_tokens (current_time : Z) (streaming_tokens : token_table)
    : token_table :=
  let expired_tokens :=
    (List.filter (fun '(_, data) => expires data <? current_time)
       (map_to_list streaming_tokens)).*1 in
  fold_left (fun tokens token => delete token tokens) expired_tokens streaming_tokens.

(** [generate_streaming_token(filename, user_id)].  [token] is the value
    [secrets.token_urlsafe(32)] draws; [t_expiry], [t_created] and
    [t_cleanup] are the three successive readings of the clock. *)
Definition generate_streaming_token (token : string) (t_expiry t_created t_cleanup : Z)
    (filename user_id : string) (streaming_tokens : token_table)
    : string * token_table :=
  let expiry := t_expiry + STREAM_TOKEN_EXPIRY in
  let streaming_tokens :=
    <[token := {| td_filename := filename; td_user_id := user_id;
                  expires := expiry; created := t_created |}]> streaming_tokens in
  (token, cleanup_expired_tokens t_cleanup streaming_tokens).

(** [validate_streaming_token(token, filename)] at clock reading
    [current_time]: the answer and the table it leaves. *)
Definition validate_streaming_token (current_time : Z) (token filename : string)
    (streaming_tokens : token_table) : bool * token_table :=
  match streaming_tokens !! token with
  | None => (false, streaming_tokens)
  | Some token_data =>
      if expires token_data <? current_time
      then (false, delete token streaming_tokens)
      else if negb (String.eqb (td_filename token_data) filename)
      then (false, streaming_tokens)
      else (true, streaming_tokens)
  end.

(** ** EpisodeParser ([extract_episode_info]) *)

Record episode_info := {
  original_filename : string;
  clean_title : string;
  season : option Z;
  episode : option Z;
  series_name : option string
}.

Inductive pattern_type := series_season_episode | series_episode.

Definition Ss : cls := CSet ["S"; "s"]%char.
Definition Ee : cls := CSet ["E"; "e"]%char.

(** The extensions [extract_episode_info] removes. *)
Definition video_extensions : list string :=
  ["mp4"; "mkv"; "avi"; "mov"; "wmv"; "flv"; "webm"; "m4v"]%string.

(** The pattern that removes a video extension: a dot, one of the known
    extensions, the end of the name. *)
Definition extension_re : regex :=
  lit "." ++ grp 1 [Alt video_extensions] ++ [Eos].

(** The head [(.+?)\s+] every episode pattern starts with. *)
Definition series_head : regex := grp 1 [plus_lazy CAny] ++ [plus CSpace].

(** The list [patterns], in the order of the source. *)
Definition patterns : list (regex * pattern_type) :=
  [ (* Series S01E01 *)
    (series_head ++ [One Ss] ++ grp 2 [plus CDigit] ++ [One Ee] ++ grp 3 [plus CDigit],
     series_season_episode);
    (* Series Season 1 Episode 1 *)
    (series_head ++ [One Ss] ++ lit "eason" ++ [star CSpace] ++ grp 2 [plus CDigit] ++
       [star_lazy CAny; One Ee] ++ lit "pisode" ++ [star CSpace] ++ grp 3 [plus CDigit],
     series_season_episode);
    (* Series 1x01 *)
    (series_head ++ grp 2 [plus CDigit] ++ lit "x" ++ grp 3 [plus CDigit],
     series_season_episode);
    (* Series Ep01 *)
    (series_head ++ [One Ee] ++ lit "p" ++ [opt (CLit "."); star CSpace] ++
       grp 2 [plus CDigit],
     series_episode);
    (* Series Episode 01 *)
    (series_head ++ [One Ee] ++ lit "pisode" ++ [star CSpace] ++ grp 2 [plus CDigit],
     series_episode);
    (* Series E01 *)
    (series_head ++ [One Ee] ++ grp 2 [plus CDigit], series_episode);
    (* Series 01 *)
    (series_head ++ grp 2 [plus CDigit], series_episode) ].

(** The assignments made for a match [mt] of a pattern of kind
    [pattern_type] in [clean_name]. *)
Definition fill_from_match (pattern_type : pattern_type) (clean_name : string)
    (mt : rmatch) (info : episode_info) : episode_info :=
  match pattern_type with
  | series_season_episode =>
      {| original_filename := original_filename info;
         clean_title := clean_title info;
         season := Some (int (group clean_name mt 2));
         episode := Some (int (group clean_name mt 3));
         series_name := Some (strip (group clean_name mt 1)) |}
  | series_episode =>
      {| original_filename := original_filename info;
         clean_title := clean_title info;
         season := season info;
         episode := Some (int (group clean_name mt 2));
         series_name := Some (strip (group clean_name mt 1)) |}
  end.

(** The [for pattern, pattern_type in patterns] loop: the first pattern
    found in [clean_name] fills the fields and ends the loop. *)
Fixpoint apply_patterns (pats : list (regex * pattern_type)) (clean_name : string)
    (info : episode_info) : episode_info :=
  match pats with
  | [] => info
  | (pattern, pattern_type) :: pats' =>
      match search true pattern clean_name with
      | Some mt => fill_from_match pattern_type clean_name mt info
      | None => apply_patterns pats' clean_name info
      end
  end.

(** Truthiness of [episode_info['series_name']]. *)
Definition name_given (n : option string) : bool :=
  match n with
  | Some s => nonempty s
  | None => false
  end.

(** The pattern [\s*\d+\s*$] that removes a trailing number. *)
Definition trailing_number_re : regex := [star CSpace; plus CDigit; star CSpace; Eos].

Definition extract_episode_info (filename : string) : episode_info :=
  let clean_name := sub_remove true extension_re filename in
  let episode_info :=
    {| original_filename := filename;
       clean_title := clean_name;
       season := None;
       episode := None;
       series_name := None |} in
  let episode_info := apply_patterns patterns clean_name episode_info in
  if name_given (series_name episode_info) then episode_info
  else
    let numbers := findall false [plus CDigit] clean_name in
    match last numbers with
    | Some number =>
        let series_match := sub_remove false trailing_number_re clean_name in
        {| original_filename := original_filename episode_info;
           clean_title := clean_title episode_info;
           season := season episode_info;
           episode := Some (int number);
           series_name :=
             if nonempty series_match then Some (strip series_match)
             else series_name episode_info |}
    | None => episode_info
    end.

(** ** SeriesIndex ([natural_sort_key], [group_files_by_series],
       [find_next_episode], [find_previous_episode]) *)

(** One element of a natural-sort key: a number or a lower-cased text. *)
Inductive key_part := KInt (n : Z) | KStr (s : string).

(** [text_part.isdigit()] *)
Definition isdigit (s : string) : bool :=
  nonempty s && forallb is_digit (chars s).

Definition convert (text_part : string) : key_part :=
  if isdigit text_part then KInt (int text_part) else KStr (lower text_part).

Definition natural_sort_key (text : string) : list key_part :=
  map convert (split false (grp 1 [plus CDigit]) text).

(** A file dictionary.  The first eight fields are the keys
    [scan_media_files] writes; [fd_episode] stands for the keys of an
    [extract_episode_info] result once they are merged in, and
    [fd_series_key] for the key [series_key], present only on the copies
    [group_files_by_series] builds. *)
Record file_data := {
  fd_filename : string;
  fd_relative_path : string;
  fd_folder : string;
  fd_type : string;
  fd_size : Z;
  fd_modified : Z;
  fd_thumbnail : option string;
  fd_full_path : string;
  fd_episode : option episode_info;
  fd_series_key : option string
}.

(** [{**file_data, **episode_info, 'series_key': series_key}] *)
Definition enhance (file : file_data) (info : episode_info)
    (series_key : string) : file_data :=
  {| fd_filename := fd_filename file;
     fd_relative_path := fd_relative_path file;
     fd_folder := fd_folder file;
     fd_type := fd_type file;
     fd_size := fd_size file;
     fd_modified := fd_modified file;
     fd_thumbnail := fd_thumbnail file;
     fd_full_path := fd_full_path file;
     fd_episode := Some info;
     fd_series_key := Some series_key |}.

(** [file_data.update(episode_info)] of [get_enhanced_media_files], applied
    to video records only. *)
Definition with_episode_info (file : file_data) : file_data :=
  if String.eqb (fd_type file) "video" then
    {| fd_filename := fd_filename file;
       fd_relative_path := fd_relative_path file;
       fd_folder := fd_folder file;
       fd_type := fd_type file;
       fd_size := fd_size file;
       fd_modified := fd_modified file;
       fd_thumbnail := fd_thumbnail file;
       fd_full_path := fd_full_path file;
       fd_episode := Some (extract_episode_info (fd_filename file));
       fd_series_key := fd_series_key file |}
  else file.

(** The series key of one video record.  [episode_info.get('series_name',
    '')] is [None] when the parser left the name unset, because the key is
    always present; [.strip()] then raises. *)
Definition series_key_of (file : file_data) (info : episode_info)
    : res string :=
  let* series_key :=
    (let by_folder := strip (fd_folder file) in
     if nonempty by_folder then Ret by_folder
     else
       match series_name info with
       | None => Raise AttributeError
       | Some name => Ret (str_or (strip name) "Unknown Series")
       end) in
  let series_key := strip (replace_char "/" " " series_key) in
  Ret (if nonempty series_key then series_key else "Unknown Series"%string).

(** The first loop of [group_files_by_series]: the groups in scan order. *)
Fixpoint collect_series (files : list file_data)
    (series_groups : gmap string (list file_data))
    : res (gmap string (list file_data)) :=
  match files with
  | [] => Ret series_groups
  | file :: files' =>
      if negb (String.eqb (fd_type file) "video")
      then collect_series files' series_groups
      else
        let info := extract_episode_info (fd_filename file) in
        let* series_key := series_key_of file info in
        let enhanced_file := enhance file info series_key in
        collect_series files'
          (<[series_key := default [] (series_groups !! series_key) ++ [enhanced_file]]>
             series_groups)
  end.

(** The order of Python on strings, by character code. *)
Fixpoint chars_ltb (a b : list ascii) : bool :=
  match a, b with
  | [], [] => false
  | [], _ :: _ => true
  | _ :: _, [] => false
  | x :: a', y :: b' =>
      if Ascii.eqb x y then chars_ltb a' b' else (code x <? code y)%N
  end.

(** [<] and [==] on key parts.  The keys of two names hold a text at every
    even index and a number at every odd one, so a text is never compared
    with a number. *)
Definition part_ltb (a b : key_part) : bool :=
  match a, b with
  | KInt x, KInt y => x <? y
  | KStr x, KStr y => chars_ltb (chars x) (chars y)
  | _, _ => false
  end.

Definition part_eqb (a b : key_part) : bool :=
  match a, b with
  | KInt x, KInt y => x =? y
  | KStr x, KStr y => String.eqb x y
  | _, _ => false
  end.

(** [<] on lists: the first differing index decides, a proper prefix is
    smaller. *)
Fixpoint key_ltb (a b : list key_part) : bool :=
  match a, b with
  | [], [] => false
  | [], _ :: _ => true
  | _ :: _, [] => false
  | x :: a', y :: b' => if part_eqb x y then key_ltb a' b' else part_ltb x y
  end.

(** [x or 0] *)
Definition or0 (v : option Z) : Z := default 0 v.

(** The sort key [(season or 0, episode or 0, natural_sort_key(filename))]. *)
Definition sort_key (x : file_data) : Z * Z * list key_part :=
  (or0 (fd_episode x ≫= season), or0 (fd_episode x ≫= episode),
   natural_sort_key (fd_filename x)).

Definition sort_key_ltb (a b : Z * Z * list key_part) : bool :=
  let '(s1, e1, n1) := a in
  let '(s2, e2, n2) := b in
  if s1 =? s2 then (if e1 =? e2 then key_ltb n1 n2 else e1 <? e2) else s1 <? s2.

(** [list.sort(key=...)] is stable: an element goes before the first one
    whose key is greater, and elements enter in their original order. *)
Fixpoint insert_sorted (x : file_data) (l : list file_data) : list file_data :=
  match l with
  | [] => [x]
  | y :: l' =>
      if sort_key_ltb (sort_key x) (sort_key y) then x :: y :: l'
      else y :: insert_sorted x l'
  end.

Definition sort_episodes (l : list file_data) : list file_data :=
  fold_left (fun sorted x => insert_sorted x sorted) l [].

Definition group_files_by_series (files : list file_data)
    : res (gmap string (list file_data)) :=
  let* series_groups := collect_series files ∅ in
  Ret (sort_episodes <$> series_groups).

(** The loop that finds [current_index]: the first index whose filename
    equals the one sought, [-1] when there is none. *)
Fixpoint index_of (filename : string) (series_episodes : list file_data) (i : Z) : Z :=
  match series_episodes with
  | [] => -1
  | episode :: rest =>
      if String.eqb (fd_filename episode) filename then i
      else index_of filename rest (i + 1)
  end.

Definition find_next_episode (current_file : file_data) (all_files : list file_data)
    : res (option file_data) :=
  if negb (String.eqb (fd_type current_file) "video") then Ret None
  else
    let* series_groups := group_files_by_series all_files in
    match fd_series_key current_file with
    | None => Ret None
    | Some current_series_key =>
        if negb (nonempty current_series_key) then Ret None
        else
          match series_groups !! current_series_key with
          | None => Ret None
          | Some series_episodes =>
              let current_index := index_of (fd_filename current_file) series_episodes 0 in
              if (current_index >=? 0) &&
                 (current_index <? Z.of_nat (length series_episodes) - 1)
              then Ret (series_episodes !! Z.to_nat (current_index + 1))
              else Ret None
          end
    end.

Definition find_previous_episode (current_file : file_data) (all_files : list file_data)
    : res (option file_data) :=
  if negb (String.eqb (fd_type current_file) "video") then Ret None
  else
    let* series_groups := group_files_by_series all_files in
    match fd_series_key current_file with
    | None => Ret None
    | Some current_series_key =>
        if negb (nonempty current_series_key) then Ret None
        else
          match series_groups !! current_series_key with
          | None => Ret None
          | Some series_episodes =>
              let current_index := index_of (fd_filename current_file) series_episodes 0 in
              if current_index >? 0
              then Ret (series_episodes !! Z.to_nat (current_index - 1))
              else Ret None
          end
    end.

(** A record as [scan_media_files] builds it for the file [name] of the
    folder [folder] (the empty string for the media root). *)
Definition scanned (folder name type : string) : file_data :=
  {| fd_filename := name;
     fd_relative_path := if nonempty folder then folder +:+ "/" +:+ name else name;
     fd_folder := folder;
     fd_type := type;
     fd_size := 0;
     fd_modified := 0;
     fd_thumbnail := None;
     fd_full_path := "/mnt/media/" +:+ (if nonempty folder then folder +:+ "/" +:+ name else name);
     fd_episode := None;
     fd_series_key := None |}.


(** ** What a pattern denotes

    [matches ic re w rest]: the pattern [re] can consume exactly [w] when
    the subject continues with [rest].  Group marks consume nothing. *)

Definition hi_allows (hi : option nat) (n : nat) : Prop :=
  match hi with
  | Some h => (n <= h)%nat
  | None => True
  end.

Fixpoint matches (ic : bool) (re : regex) (w rest : list ascii) : Prop :=
  match re with
  | [] => w = []
  | One cl :: re' =>
      exists a w', w = a :: w' /\ cls_match ic cl a = true /\ matches ic re' w' rest
  | Rep cl lo hi _ :: re' =>
      exists u w', w = u ++ w' /\ Forall (fun a => cls_match ic cl a = true) u /\
        (lo <= length u)%nat /\ hi_allows hi (length u) /\ matches ic re' w' rest
  | Open _ :: re' => matches ic re' w rest
  | Close _ :: re' => matches ic re' w rest
  | Alt alts :: re' =>
      exists alt u w', In alt alts /\ w = u ++ w' /\ length u = length (chars alt) /\
        lit_prefix ic (chars alt) u = true /\ matches ic re' w' rest
  | Eos :: re' => at_end (w ++ rest) = true /\ matches ic re' w rest
  end.

(** Whatever a repetition returns, the continuation returned it after a
    run of the class of an allowed length. *)
Definition rep_sound (rep : (ascii -> bool) -> (list ascii -> nat -> option outcome) ->
                            nat -> option nat -> list ascii -> nat -> option outcome) : Prop :=
  forall p k s lo hi pos r,
    rep p k lo hi s pos = Some r ->
    exists u s', s = u ++ s' /\ Forall (fun a => p a = true) u /\
      (lo <= length u)%nat /\ hi_allows hi (length u) /\
      k s' (pos + length u)%nat = Some r.

(** A pattern with a node that consumes at least one digit. *)
Definition digit_node (n : node) : bool :=
  match n with
  | One CDigit => true
  | Rep CDigit (S _) _ _ => true
  | _ => false
  end.

Definition needs_digit (re : regex) : bool := existsb digit_node re.

(** A string without any decimal digit. *)
Definition digit_free (s : string) : Prop :=
  Forall (fun c => is_digit c = false) (chars s).

(** A run of decimal digits. *)
Definition digits (ds : list ascii) : Prop :=
  Forall (fun c => is_digit c = true) ds.

(** A Range header is well formed when the pattern of [range_re] occurs in
    it: [bytes=], at least one digit, a dash. *)
Definition well_formed_range (h : string) : Prop :=
  exists pre ds post, ds <> [] /\ digits ds /\
    chars h = pre ++ chars "bytes=" ++ ds ++ "-"%char :: post.

Definition malformed_range (h : string) : Prop := ~ well_formed_range h.

(** The ranges [s, e] of a list, in order, tile the offsets [lo .. n-1]. *)
Fixpoint tiles (lo n : Z) (ranges : list (Z * Z)) : Prop :=
  match ranges with
  | [] => lo = n
  | (s, e) :: ranges' => s = lo /\ s <= e /\ e <= n - 1 /\ tiles (e + 1) n ranges'
  end.

(** The key after [replace('/', ' ').strip()] and the last fallback. *)
Definition normalised (series_key : string) : string :=
  let series_key := strip (replace_char "/" " " series_key) in
  if nonempty series_key then series_key else "Unknown Series"%string.

(** A list of episodes in which no element has a key below that of the
    element before it. *)
Fixpoint ordered (l : list file_data) : Prop :=
  match l with
  | a :: l' =>
      match l' with
      | b :: _ => sort_key_ltb (sort_key b) (sort_key a) = false
      | [] => True
      end /\ ordered l'
  | [] => True
  end.

(** ** Sample inputs *)

(** A probe result with an H.264 video stream in an MP4 container and an
    audio stream whose codec name is the word [none]. *)
Definition probe_audio_named_none : video_info :=
  {| format := {| format_name := Some "mov,mp4,m4a,3gp,3g2,mj2"%string;
                  format_filename := Some "/mnt/media/video/a.mp4"%string |};
     video_stream := Some {| codec_name := Some "h264"%string |};
     audio_stream := Some {| codec_name := Some "none"%string |};
     duration := "10.0";
     vi_size := 1000 |}.

(** The probe results of the specification's examples. *)
Definition probe_mp4_h264_silent : video_info :=
  {| format := {| format_name := Some "mp4"%string; format_filename := None |};
     video_stream := Some {| codec_name := Some "h264"%string |};
     audio_stream := None;
     duration := "0";
     vi_size := 0 |}.

Definition probe_avi_mpeg4 : video_info :=
  {| format := {| format_name := Some "avi"%string; format_filename := None |};
     video_stream := Some {| codec_name := Some "mpeg4"%string |};
     audio_stream := None;
     duration := "0";
     vi_size := 0 |}.

(** A video without digits in its name, directly in the media root. *)
Definition root_movie : file_data := scanned "" "Movie.mkv" "video".

(** Three episodes of the folder [Show], as [get_enhanced_media_files]
    hands them to the navigation functions: the scanned records with the
    parsed episode fields merged in. *)
Definition show_e01 : file_data :=
  with_episode_info (scanned "Show" "Show S01E01.mkv" "video").
Definition show_e02 : file_data :=
  with_episode_info (scanned "Show" "Show S01E02.mkv" "video").
Definition show_e10 : file_data :=
  with_episode_info (scanned "Show" "Show S01E10.mkv" "video").
Definition show_files : list file_data := [show_e02; show_e01; show_e10].

(** The same episodes as the copies [group_files_by_series] stores, which
    carry the key [series_key]. *)
Definition grouped (file : file_data) : file_data :=
  enhance file (extract_episode_info (fd_filename file)) "Show".

(** ** The enhanced listing ([get_enhanced_media_files]) *)




(** ** Upload checks ([allowed_file], [chunked_file_save]) *)

(** [Config.ALLOWED_EXTENSIONS], in the order of the dictionary. *)
Definition ALLOWED_EXTENSIONS : list (string * list string) :=
  [ ("image", ["jpg"; "jpeg"; "png"; "gif"; "bmp"; "webp"; "tiff"; "svg"]);
    ("video", ["mp4"; "avi"; "mkv"; "mov"; "wmv"; "flv"; "webm"; "m4v"; "mpg"; "mpeg";
               "3gp"; "ogv"]);
    ("audio", ["mp3"; "wav"; "flac"; "aac"; "ogg"; "m4a"; "wma"; "opus"]);
    ("document", ["pdf"; "doc"; "docx"; "xls"; "xlsx"; "ppt"; "pptx"; "txt"; "rtf"; "md";
                  "csv"; "odt"; "ods"; "odp"]);
    ("code", ["py"; "js"; "ts"; "html"; "css"; "json"; "xml"; "yaml"; "yml"; "sh"; "php";
              "java"; "cpp"; "h"; "sql"]);
    ("archive", ["zip"; "rar"; "7z"; "tar"; "gz"; "bz2"; "xz"; "tgz"; "tbz2"; "txz"]) ]%string.

(** [s.rsplit(sep, 1)[1]]: the text after the last [sep] of [s]; [None]
    when [s] holds no [sep], where the index is out of range. *)
Fixpoint after_last (sep : ascii) (cs : list ascii) : option (list ascii) :=
  match cs with
  | [] => None
  | c :: cs' =>
      match after_last sep cs' with
      | Some ext => Some ext
      | None => if Ascii.eqb c sep then Some cs' else None
      end
  end.

(** The loop [for file_type, extensions in Config.ALLOWED_EXTENSIONS.items()]. *)
Fixpoint file_type_of (ext : string) (table : list (string * list string))
    : option string :=
  match table with
  | [] => None
  | (file_type, extensions) :: table' =>
      if mem ext extensions then Some file_type else file_type_of ext table'
  end.

Definition allowed_file (filename : string) : bool * option string :=
  if negb (str_in "." filename) then (false, None)
  else
    match after_last "." (chars filename) with
    | Some ext =>
        match file_type_of (lower (pystr ext)) ALLOWED_EXTENSIONS with
        | Some file_type => (true, Some file_type)
        | None => (false, None)
        end
    | None => (false, None) (* not reached: the name holds a dot *)
    end.




(** ** Folder thumbnails ([get_folder_thumbnail]) *)

(** A value of the thumbnails file: a dictionary with the keys
    [thumbnail_url] and [inherit_to_children], a string (the legacy format),
    or another JSON value. *)
Inductive thumbnail_entry :=
  | Custom (thumbnail_url : option string) (inherit_to_children : bool)
  | Legacy (thumbnail : string)
  | OtherValue.

(** What [get_folder_thumbnail] returns: the stored value itself, or a
    thumbnail name that may be [None]. *)
Inductive thumbnail_result :=
  | Entry (e : thumbnail_entry)
  | Url (u : option string).

(** [s.split(sep)] *)
Fixpoint split_on (sep : ascii) (cs : list ascii) : list (list ascii) :=
  match cs with
  | [] => [[]]
  | c :: cs' =>
      if Ascii.eqb c sep then [] :: split_on sep cs'
      else
        match split_on sep cs' with
        | part :: parts => (c :: part) :: parts
        | [] => [[c]]
        end
  end.

(** [sep.join(parts)] *)
Fixpoint join (sep : ascii) (parts : list (list ascii)) : list ascii :=
  match parts with
  | [] => []
  | part :: parts' =>
      match parts' with
      | [] => part
      | _ :: _ => part ++ sep :: join sep parts'
      end
  end.

(** The loop [for i in range(len(path_parts) - 1, -1, -1)], with [n]
    iterations left: [Some u] when it returns [u], [None] when it ends. *)
Fixpoint inherit_from (folder_thumbnails : gmap string thumbnail_entry)
    (file_type : string) (path_parts : list (list ascii)) (n : nat)
    : option (option string) :=
  match n with
  | O => None
  | S i =>
      let parent_path :=
        match i with
        | O => "Root"%string
        | S _ => pystr (join "/" (take i path_parts))
        end in
      let parent_key := (file_type +:+ "/" +:+ parent_path)%string in
      match folder_thumbnails !! parent_key with
      | Some (Custom thumbnail_url true) => Some thumbnail_url
      | _ => inherit_from folder_thumbnails file_type path_parts i
      end
  end.

(** The key under which a folder is stored: [Root] stands for the media
    directory itself. *)
Definition folder_key (folder_path file_type : string) : string :=
  if String.eqb folder_path "" || String.eqb folder_path "Root"
  then (file_type +:+ "/Root")%string
  else (file_type +:+ "/" +:+ folder_path)%string.

(** [get_folder_thumbnail(folder_path, file_type)].  [folder_thumbnails] is
    what [load_folder_thumbnails()] returns and [auto] what
    [get_auto_folder_thumbnail(folder_path, file_type)] does. *)
Definition get_folder_thumbnail (folder_thumbnails : gmap string thumbnail_entry)
    (auto : option string) (folder_path file_type : string) : thumbnail_result :=
  match folder_thumbnails !! folder_key folder_path file_type with
  | Some e => Entry e
  | None =>
      let path_parts :=
        if String.eqb folder_path "Root" then [] else split_on "/" (chars folder_path) in
      match inherit_from folder_thumbnails file_type path_parts (length path_parts) with
      | Some u => Url u
      | None => Url auto
      end
  end.

(** ** Stream selection ([get_video_info]) *)

(** One entry of [info['streams']]: its [codec_type] and the rest. *)
Record probe_stream := { codec_type : option string; ps_stream : stream }.

(** [stream.get('codec_type') == t] *)
Definition type_is (s : probe_stream) (t : string) : bool :=
  match codec_type s with
  | Some t' => String.eqb t' t
  | None => false
  end.

(** [not x] for [x] that is [None] or a stream dictionary. *)
Definition unset (x : option stream) : bool :=
  match x with
  | None => true
  | Some _ => false
  end.

(** The loop [for stream in info.get('streams', [])]. *)
Fixpoint select_streams (streams : list probe_stream)
    (video_stream audio_stream : option stream) : option stream * option stream :=
  match streams with
  | [] => (video_stream, audio_stream)
  | s :: streams' =>
      if type_is s "video" && unset video_stream
      then select_streams streams' (Some (ps_stream s)) audio_stream
      else if type_is s "audio" && unset audio_stream
      then select_streams streams' video_stream (Some (ps_stream s))
      else select_streams streams' video_stream audio_stream
  end.

(** ** User ids ([UserManager.create_user]) *)

Record user := {
  u_id : string;
  u_username : string;
  u_password_hash : string;
  u_is_admin : bool
}.

(** [create_user(username, password, is_admin)] on the dictionary
    [self.users]; [password_hash] is what [generate_password_hash(password)]
    returns.  The result is the new user and the dictionary that
    [save_users] then writes. *)
Definition create_user (username password_hash : string) (is_admin : bool)
    (users : gmap string user) : user * gmap string user :=
  let user_id := str (Z.of_nat (size users) + 1) in
  let user := {| u_id := user_id; u_username := username;
                 u_password_hash := password_hash; u_is_admin := is_admin |} in
  (user, <[user_id := user]> users).

(** [get_user(user_id)] *)
Definition get_user (user_id : string) (users : gmap string user) : option user :=
  users !! user_id.

(** ** Notions used in the further properties *)





(** The video records of [files] whose series key is [k]. *)
Definition in_series (k : string) (file : file_data) : bool :=
  String.eqb (fd_type file) "video" &&
  match series_key_of file (extract_episode_info (fd_filename file)) with
  | Ret k' => String.eqb k' k
  | Raise _ => false
  end.


(** The ids of a user dictionary are the numbers 1 to its size. *)
Definition consecutive_ids (users : gmap string user) : Prop :=
  forall k, is_Some (users !! k) <-> exists i, 1 <= i <= Z.of_nat (size users) /\ k = str i.

(** * Properties *)

(** ** Strings and numbers *)

Lemma chars_pystr (cs : list ascii) : chars (pystr cs) = cs.
Proof. apply list_ascii_of_string_of_list_ascii. Qed.

Lemma pystr_chars (s : string) : pystr (chars s) = s.
Proof. apply string_of_list_ascii_of_string. Qed.

Lemma chars_app (a b : string) : chars (a +:+ b) = chars a ++ chars b.
Proof. induction a as [|c a IH]; simpl; [reflexivity|]. unfold chars in *. simpl. now rewrite IH. Qed.

Lemma nonempty_chars (s : string) : nonempty s = true <-> chars s <> [].
Proof. destruct s; simpl; split; intros; congruence. Qed.

(** The characters of an unsigned decimal are digits. *)
Lemma digits_of_uint (d : uint) : digits (chars (NilEmpty.string_of_uint d)).
Proof.
  induction d; simpl; try (constructor; [reflexivity | exact IHd]).
  constructor.
Qed.

(** Reading a decimal back, with an accumulator already read. *)
Lemma int_of_uint_acc (d : uint) (acc : positive) :
  fold_left (fun a c => 10 * a + digit_val c) (chars (NilEmpty.string_of_uint d)) (Z.pos acc)
  = Z.pos (Pos.of_uint_acc d acc).
Proof.
  revert acc. induction d; intros acc; simpl; try reflexivity;
    (etransitivity; [| apply IHd]); f_equal;
    match goal with
    | |- context [digit_val ?c] =>
        let v := eval vm_compute in (digit_val c) in change (digit_val c) with v
    end; lia.
Qed.

Lemma int_of_uint (d : uint) :
  int_chars (chars (NilEmpty.string_of_uint d)) = Z.of_N (Pos.of_uint d).
Proof.
  unfold int_chars. induction d; simpl; try reflexivity; try exact IHd;
    apply (int_of_uint_acc d).
Qed.

Lemma str_nonneg (n : Z) : 0 <= n ->
  exists d, d <> Nil /\ str n = NilEmpty.string_of_uint d /\ Z.of_N (Pos.of_uint d) = n.
Proof.
  intros Hn. destruct n as [|p|p]; [| |lia].
  - exists (D0 Nil). repeat split. discriminate.
  - exists (Pos.to_uint p). split; [apply Unsigned.to_uint_nonnil|]. split.
    + unfold str. simpl. destruct (Pos.to_uint p) eqn:E; try reflexivity.
      exfalso. now apply (Unsigned.to_uint_nonnil p).
    + now rewrite Unsigned.of_to.
Qed.

(** [str] of a number that is not negative is a non-empty run of digits,
    and [int] reads it back. *)
Lemma str_digits (n : Z) : 0 <= n -> digits (chars (str n)) /\ chars (str n) <> [].
Proof.
  intros Hn. destruct (str_nonneg n Hn) as (d & Hd & -> & _). split.
  - apply digits_of_uint.
  - destruct d; simpl; congruence.
Qed.

Lemma int_str (n : Z) : 0 <= n -> int (str n) = n.
Proof.
  intros Hn. destruct (str_nonneg n Hn) as (d & Hd & -> & <-). apply int_of_uint.
Qed.

(** ** The matcher against the denotation *)

Section MatcherFacts.
Variable ic : bool.

(** A greedy repetition over a whole run [ds] that the next character
    ends returns what the continuation gives after the run. *)
Lemma rep_greedy_all p k lo (ds rest : list ascii) pos r :
  Forall (fun a => p a = true) ds ->
  (lo <= length ds)%nat ->
  match rest with a :: _ => p a = false | [] => True end ->
  k rest (pos + length ds)%nat = Some r ->
  rep_greedy p k lo None (ds ++ rest) pos = Some r.
Proof.
  intros Hds. revert lo pos. induction Hds as [|a ds Ha Hds IH]; intros lo pos Hlo Hrest Hk.
  - simpl in *. replace lo with 0%nat by lia. rewrite Nat.add_0_r in Hk.
    destruct rest as [|b rest]; simpl; [exact Hk|]. now rewrite Hrest.
  - simpl. rewrite Ha. simpl.
    rewrite (IH (pred lo) (S pos)); [reflexivity | simpl in Hlo; lia | exact Hrest |].
    rewrite <- Hk. f_equal. simpl. lia.
Qed.

Lemma hi_allows_step hi n : hi_ok hi = true -> hi_allows (hi_pred hi) n -> hi_allows hi (S n).
Proof. destruct hi as [[|h]|]; simpl; intros; try discriminate; try lia; auto. Qed.

Lemma hi_allows_0 hi : hi_allows hi 0.
Proof. destruct hi; simpl; [lia | exact I]. Qed.

Lemma rep_stop p (k : list ascii -> nat -> option outcome) s lo hi pos r :
  (if (lo =? 0)%nat then k s pos else None) = Some r ->
  exists u s', s = u ++ s' /\ Forall (fun a => p a = true) u /\
    (lo <= length u)%nat /\ hi_allows hi (length u) /\
    k s' (pos + length u)%nat = Some r.
Proof.
  destruct (Nat.eqb_spec lo 0) as [->|]; [|discriminate]. intros Hk.
  exists [], s. simpl. rewrite Nat.add_0_r.
  repeat split; [constructor | lia | apply hi_allows_0 | exact Hk].
Qed.

Lemma rep_more p (k : list ascii -> nat -> option outcome) a s lo hi pos r :
  p a = true -> hi_ok hi = true ->
  (exists u s', s = u ++ s' /\ Forall (fun a => p a = true) u /\
     (pred lo <= length u)%nat /\ hi_allows (hi_pred hi) (length u) /\
     k s' (S pos + length u)%nat = Some r) ->
  exists u s', a :: s = u ++ s' /\ Forall (fun a => p a = true) u /\
    (lo <= length u)%nat /\ hi_allows hi (length u) /\
    k s' (pos + length u)%nat = Some r.
Proof.
  intros Ha Hhi (u & s' & -> & Hu & Hlo & Hh & Hk).
  exists (a :: u), s'. simpl. repeat split.
  - now constructor.
  - lia.
  - now apply hi_allows_step.
  - rewrite <- Hk. f_equal. lia.
Qed.

Lemma rep_greedy_sound : rep_sound rep_greedy.
Proof.
  intros p k s. induction s as [|a s IH]; intros lo hi pos r; simpl.
  - apply rep_stop.
  - destruct (p a && hi_ok hi) eqn:E.
    + apply andb_true_iff in E as [Ha Hhi].
      destruct (rep_greedy p k (pred lo) (hi_pred hi) s (S pos)) as [r'|] eqn:Hm.
      * intros [= <-]. apply rep_more; auto.
      * apply rep_stop.
    + apply rep_stop.
Qed.

Lemma rep_lazy_sound : rep_sound rep_lazy.
Proof.
  intros p k s. induction s as [|a s IH]; intros lo hi pos r; simpl.
  - destruct (if (lo =? 0)%nat then k [] pos else None) eqn:Hs; [|discriminate].
    intros [= <-]. now apply rep_stop.
  - destruct (if (lo =? 0)%nat then k (a :: s) pos else None) eqn:Hs.
    + intros [= <-]. now apply rep_stop.
    + destruct (p a && hi_ok hi) eqn:E; [|discriminate].
      apply andb_true_iff in E as [Ha Hhi]. intros Hm. apply rep_more; auto.
Qed.

Lemma lit_prefix_split (w s : list ascii) :
  lit_prefix ic w s = true ->
  length (take (length w) s) = length w /\ lit_prefix ic w (take (length w) s) = true.
Proof.
  revert s. induction w as [|a w IH]; intros [|b s]; simpl; try discriminate; auto.
  intros H. apply andb_true_iff in H as [Hab Hw]. destruct (IH s Hw) as [Hl Hp].
  rewrite Hab, Hp, Hl. auto.
Qed.

(** Soundness of the matcher. *)
Lemma m_sound (re : regex) : forall s pos c e c',
  m ic re s pos c = Some (e, c') ->
  exists w rest, s = w ++ rest /\ matches ic re w rest /\ e = (pos + length w)%nat.
Proof.
  induction re as [|n re IH]; intros s pos c e c'; simpl.
  - intros [= <- <-]. exists [], s. simpl. repeat split. lia.
  - destruct n as [cl|cl lo hi q|g|g|alts|].
    + destruct s as [|a s]; [discriminate|].
      destruct (cls_match ic cl a) eqn:Ha; [|discriminate]. intros Hm.
      destruct (IH _ _ _ _ _ Hm) as (w & rest & -> & Hw & ->).
      exists (a :: w), rest. simpl. repeat split; [|lia]. now exists a, w.
    + intros Hm.
      assert (exists u s', s = u ++ s' /\
                Forall (fun a => cls_match ic cl a = true) u /\
                (lo <= length u)%nat /\ hi_allows hi (length u) /\
                m ic re s' (pos + length u)%nat c = Some (e, c')) as (u & s' & -> & Hu & Hlo & Hhi & Hk).
      { destruct q; [apply rep_greedy_sound in Hm | apply rep_lazy_sound in Hm]; exact Hm. }
      destruct (IH _ _ _ _ _ Hk) as (w & rest & -> & Hw & ->).
      exists (u ++ w), rest. rewrite <- app_assoc. repeat split.
      * now exists u, w.
      * rewrite length_app. lia.
    + intros Hm. destruct (IH _ _ _ _ _ Hm) as (w & rest & -> & Hw & ->). now exists w, rest.
    + intros Hm. destruct (IH _ _ _ _ _ Hm) as (w & rest & -> & Hw & ->). now exists w, rest.
    + assert (forall l, (forall x, In x l -> In x alts) ->
        (fix try (l : list string) : option outcome :=
           match l with
           | [] => None
           | w :: l' =>
               let n := length (chars w) in
               match (if lit_prefix ic (chars w) s
                      then m ic re (drop n s) (pos + n)%nat c else None) with
               | Some r => Some r
               | None => try l'
               end
           end) l = Some (e, c') ->
        exists w rest, s = w ++ rest /\ matches ic (Alt alts :: re) w rest /\
          e = (pos + length w)%nat) as Htry.
      { induction l as [|x l IHl]; intros Hin; [discriminate|]. simpl.
        destruct (lit_prefix ic (chars x) s) eqn:Hp.
        - destruct (m ic re (drop (length (chars x)) s) (pos + length (chars x))%nat c)
            as [[e1 c1]|] eqn:Hm.
          + intros [= <- <-]. destruct (IH _ _ _ _ _ Hm) as (w & rest & Hs & Hw & ->).
            destruct (lit_prefix_split _ _ Hp) as [Hl Hp'].
            exists (take (length (chars x)) s ++ w), rest. repeat split.
            * rewrite <- app_assoc, <- Hs. now rewrite take_drop.
            * exists x, (take (length (chars x)) s), w. repeat split; auto.
              apply Hin. now left.
            * rewrite length_app, Hl. lia.
          + apply IHl. intros y Hy. apply Hin. now right.
        - apply IHl. intros y Hy. apply Hin. now right. }
      apply Htry. auto.
    + destruct (at_end s) eqn:He; [|discriminate]. intros Hm.
      destruct (IH _ _ _ _ _ Hm) as (w & rest & -> & Hw & ->). now exists w, rest.
Qed.

(** A search that succeeds found a factor of the subject the pattern
    denotes. *)
Lemma search_at_sound (re : regex) : forall s pos mt,
  search_at ic re s pos = Some mt ->
  exists pre w rest, s = pre ++ w ++ rest /\ matches ic re w rest.
Proof.
  induction s as [|a s IH]; intros pos mt; simpl.
  - destruct (m ic re [] pos no_caps) as [[e c]|] eqn:Hm; [|discriminate]. intros _.
    destruct (m_sound _ _ _ _ _ _ Hm) as (w & rest & Hs & Hw & _). now exists [], w, rest.
  - destruct (m ic re (a :: s) pos no_caps) as [[e c]|] eqn:Hm.
    + intros _. destruct (m_sound _ _ _ _ _ _ Hm) as (w & rest & Hs & Hw & _).
      now exists [], w, rest.
    + intros H. destruct (IH _ _ H) as (pre & w & rest & -> & Hw).
      now exists (a :: pre), w, rest.
Qed.

(** Without any factor the pattern denotes there is no span at all. *)
Lemma spans_from_none (re : regex) : forall s pos,
  (forall pre w rest, s = pre ++ w ++ rest -> ~ matches ic re w rest) ->
  spans_from ic re s pos 0 = [].
Proof.
  induction s as [|a s IH]; intros pos Hno; simpl.
  - destruct (m ic re [] pos no_caps) as [[e c]|] eqn:Hm; [|reflexivity].
    destruct (m_sound _ _ _ _ _ _ Hm) as (w & rest & Hs & Hw & _).
    exfalso. now apply (Hno [] w rest).
  - destruct (m ic re (a :: s) pos no_caps) as [[e c]|] eqn:Hm.
    + destruct (m_sound _ _ _ _ _ _ Hm) as (w & rest & Hs & Hw & _).
      exfalso. now apply (Hno [] w rest).
    + apply IH. intros pre w rest -> Hw. now apply (Hno (a :: pre) w rest).
Qed.
End MatcherFacts.

(** ** Reading a Range header *)

Lemma substr_mid (a b c : list ascii) :
  substr (a ++ b ++ c) (length a) (length a + length b) = b.
Proof.
  unfold substr. rewrite drop_app_length.
  replace (length a + length b - length a)%nat with (length b) by lia.
  now rewrite take_app_length.
Qed.

(** On [bytes=<ds>-<de>] the pattern is found at offset 0, with [ds] and
    [de] as its two groups. *)
Lemma search_range (ds de : list ascii) :
  digits ds -> ds <> [] -> digits de ->
  let h := pystr (chars "bytes=" ++ ds ++ "-"%char :: de) in
  exists mt, search false range_re h = Some mt /\
    group h mt 1 = pystr ds /\ group h mt 2 = pystr de.
Proof.
  intros Hds Hne Hde h.
  exists {| m_start := 0; m_end := (7 + length ds + length de)%nat;
            m_caps := {| starts := [(2, 7 + length ds); (1, 6)]%nat;
                         ends := [(2, 7 + length ds + length de); (1, 6 + length ds)]%nat |} |}.
  split; [|split].
  - unfold search, h. rewrite chars_pystr.
    change range_re with
      ([One (CLit "b"); One (CLit "y"); One (CLit "t"); One (CLit "e"); One (CLit "s");
        One (CLit "="); Open 1; Rep CDigit 1 None Greedy; Close 1; One (CLit "-");
        Open 2; Rep CDigit 0 None Greedy; Close 2])%char.
    cbn [chars list_ascii_of_string app search_at m cls_match char_eq Ascii.eqb Bool.eqb].
    rewrite (rep_greedy_all _ _ 1 ds ("-"%char :: de) 6
               ((7 + length ds + length de)%nat,
                {| starts := [(2, 7 + length ds); (1, 6)]%nat;
                   ends := [(2, 7 + length ds + length de); (1, 6 + length ds)]%nat |})).
    + reflexivity.
    + exact Hds.
    + destruct ds; [congruence | simpl; lia].
    + reflexivity.
    + cbn [m cls_match char_eq Ascii.eqb Bool.eqb].
      rewrite <- (app_nil_r de) at 1.
      rewrite (rep_greedy_all _ _ 0 de [] (S (6 + length ds))
                 ((7 + length ds + length de)%nat,
                  {| starts := [(2, 7 + length ds); (1, 6)]%nat;
                     ends := [(2, 7 + length ds + length de); (1, 6 + length ds)]%nat |})).
      * reflexivity.
      * exact Hde.
      * lia.
      * exact I.
      * cbn [m open_group close_group starts ends]. repeat f_equal; lia.
  - unfold group, h. rewrite chars_pystr. cbn [m_caps starts ends assoc Nat.eqb].
    f_equal. change 6%nat with (length (chars "bytes=")).
    change ("-"%char :: de) with (["-"%char] ++ de). rewrite app_assoc.
    rewrite <- (app_assoc (chars "bytes=")). apply substr_mid.
  - unfold group, h. rewrite chars_pystr. cbn [m_caps starts ends assoc Nat.eqb].
    f_equal.
    replace (chars "bytes=" ++ ds ++ "-"%char :: de)
      with ((chars "bytes=" ++ ds ++ ["-"%char]) ++ de ++ []).
    + replace (7 + length ds)%nat with (length (chars "bytes=" ++ ds ++ ["-"%char])).
      * replace (7 + length ds + length de)%nat
          with (length (chars "bytes=" ++ ds ++ ["-"%char]) + length de)%nat.
        -- apply substr_mid.
        -- rewrite !length_app. simpl. lia.
      * rewrite !length_app. simpl. lia.
    + rewrite app_nil_r, <- !app_assoc. reflexivity.
Qed.

(** ** The chunk generator *)

Lemma take_then_rest {A} (l : list A) : forall c n, (c <= n)%nat ->
  take c l ++ take (n - length (take c l)) (drop (length (take c l)) l) = take n l.
Proof.
  induction l as [|a l IH]; intros c n Hcn.
  - now rewrite !take_nil, drop_nil, take_nil.
  - destruct c as [|c]; simpl.
    + now rewrite Nat.sub_0_r.
    + destruct n as [|n]; [lia|]. simpl. f_equal. apply IH. lia.
Qed.

(** With fuel for [remaining] iterations the loop ends, and the chunks it
    yields are the next [remaining] bytes after the cursor (fewer when the
    file ends before). *)
Lemma generate_loop_spec (fuel : nat) : forall f remaining,
  (Z.to_nat remaining <= fuel)%nat ->
  exists chunks, generate_loop fuel f remaining = Some chunks /\
    concat chunks = take (Z.to_nat remaining) (drop (f_pos f) (f_data f)).
Proof.
  induction fuel as [|fuel IH]; intros f remaining Hfuel.
  - exists []. simpl. destruct (Z.gtb_spec remaining 0); [lia|].
    split; [reflexivity|]. replace (Z.to_nat remaining) with 0%nat by lia. reflexivity.
  - simpl. destruct (Z.gtb_spec remaining 0) as [Hpos|Hnpos].
    + set (l := drop (f_pos f) (f_data f)).
      set (c := Z.to_nat (Z.min CHUNK_SIZE remaining)).
      assert (1 <= c <= Z.to_nat remaining)%nat as Hc by (unfold c, CHUNK_SIZE; lia).
      destruct (take c l) as [|b chunk] eqn:Hchunk.
      * exists []. split; [reflexivity|]. destruct l as [|x l'].
        -- now rewrite take_nil.
        -- destruct c; [lia | discriminate].
      * rewrite <- Hchunk.
        destruct (IH {| f_data := f_data f; f_pos := f_pos f + length (take c l) |}
                    (remaining - Z.of_nat (length (take c l)))) as (chunks & Hloop & Hcat).
        { rewrite Hchunk. simpl. lia. }
        rewrite Hloop. exists (take c l :: chunks). split; [reflexivity|].
        simpl. rewrite Hcat. simpl.
        rewrite <- drop_drop. fold l.
        replace (Z.to_nat (remaining - Z.of_nat (length (take c l))))
          with (Z.to_nat remaining - length (take c l))%nat by lia.
        apply take_then_rest. lia.
    + exists []. split; [reflexivity|].
      replace (Z.to_nat remaining) with 0%nat by lia. reflexivity.
Qed.

(** [generate] always ends, and delivers the bytes from [byte_start] on,
    [content_length] of them at most. *)
Lemma generate_spec (data : list byte) (byte_start content_length : Z) :
  exists chunks, generate data byte_start content_length = Some chunks /\
    concat chunks = take (Z.to_nat content_length) (drop (Z.to_nat byte_start) data).
Proof.
  unfold generate.
  destruct (generate_loop_spec (Z.to_nat content_length)
              (f_seek byte_start (f_open data)) content_length) as (chunks & H1 & H2);
    [lia|].
  exists chunks. split; [exact H1 | exact H2].
Qed.

(** ** The response of [stream_file_with_ranges] *)

(** The response for a file that exists, in terms of the range read from
    the header. *)
Lemma stream_response (content_type : string) (vi : option video_info)
    (data : list byte) (range_header : option string) :
  let n := Z.of_nat (length data) in
  let byte_start := (requested_range n range_header).1 in
  let byte_end := Z.min (requested_range n range_header).2 (n - 1) in
  exists r,
    stream_file_with_ranges content_type (Some data) range_header vi = Response r /\
    status_code r = (if header_given range_header then 206 else 200) /\
    dict_get "Content-Length" (headers r) = Some (str (byte_end - byte_start + 1)) /\
    dict_get "Content-Range" (headers r) =
      (if header_given range_header
       then Some ("bytes " +:+ str byte_start +:+ "-" +:+ str byte_end +:+ "/" +:+ str n)
       else None) /\
    body r = generate data byte_start (byte_end - byte_start + 1).
Proof.
  intros n byte_start byte_end. subst byte_start byte_end n.
  unfold stream_file_with_ranges.
  destruct (requested_range (Z.of_nat (length data)) range_header) as [bs be].
  destruct (header_given range_header), (str_in "video" content_type);
    eexists; (split; [reflexivity|]); simpl; repeat split.
Qed.

Lemma range_of_chars (s e : Z) :
  range_of s e = pystr (chars "bytes=" ++ chars (str s) ++ "-"%char :: chars (str e)).
Proof.
  rewrite <- (pystr_chars (range_of s e)). unfold range_of.
  now rewrite !chars_app.
Qed.


(** [bytes=<s>-<e>] is read as [(s, e)]. *)
Lemma requested_range_of (n s e : Z) : 0 <= s -> 0 <= e ->
  requested_range n (Some (range_of s e)) = (s, e).
Proof.
  intros Hs He. unfold requested_range.
  change (nonempty (range_of s e)) with true. cbv iota.
  destruct (str_digits s Hs) as [Hds Hns]. destruct (str_digits e He) as [Hde Hne].
  rewrite range_of_chars.
  destruct (search_range (chars (str s)) (chars (str e)) Hds Hns Hde) as (mt & -> & -> & ->).
  rewrite !pystr_chars.
  replace (nonempty (str e)) with true by (symmetry; now apply nonempty_chars).
  now rewrite !int_str.
Qed.


Lemma cls_lit_eq (c a : ascii) : cls_match false (CLit c) a = true -> a = c.
Proof. simpl. unfold char_eq. intros H. symmetry. now apply Ascii.eqb_eq. Qed.

(** What [range_re] denotes: [bytes=], digits, a dash, digits. *)
Lemma range_re_denotes (w rest : list ascii) :
  matches false range_re w rest ->
  exists ds de, ds <> [] /\ digits ds /\ w = chars "bytes=" ++ ds ++ "-"%char :: de.
Proof.
  change range_re with
    ([One (CLit "b"); One (CLit "y"); One (CLit "t"); One (CLit "e"); One (CLit "s");
      One (CLit "="); Open 1; Rep CDigit 1 None Greedy; Close 1; One (CLit "-");
      Open 2; Rep CDigit 0 None Greedy; Close 2])%char.
  cbn [matches].
  intros (a1 & w1 & -> & H1 & a2 & w2 & -> & H2 & a3 & w3 & -> & H3 &
          a4 & w4 & -> & H4 & a5 & w5 & -> & H5 & a6 & w6 & -> & H6 &
          ds & w7 & -> & Hds & Hlen & _ & a7 & w8 & -> & H7 & _).
  apply cls_lit_eq in H1, H2, H3, H4, H5, H6, H7. subst.
  exists ds, w8. repeat split.
  - destruct ds; [simpl in Hlen; lia | congruence].
  - exact Hds.
Qed.

(** A malformed header is read like an absent one. *)
Lemma requested_range_malformed (n : Z) (h : string) :
  malformed_range h -> requested_range n (Some h) = (0, n - 1).
Proof.
  intros Hbad. unfold requested_range.
  destruct (nonempty h); [|reflexivity].
  destruct (search false range_re h) as [mt|] eqn:Hs; [|reflexivity].
  exfalso. apply Hbad. unfold search in Hs.
  destruct (search_at_sound _ _ _ _ _ Hs) as (pre & w & rest & Hh & Hw).
  destruct (range_re_denotes _ _ Hw) as (ds & de & Hne & Hds & ->).
  exists pre, ds, (de ++ rest). repeat split; auto.
  rewrite Hh. rewrite <- !app_assoc. reflexivity.
Qed.

(** The bytes delivered for the range [s .. e] are that slice. *)
Lemma generate_slice (data : list byte) (s e : Z) : 0 <= s ->
  (fun chunks => concat chunks) <$> generate data s (e - s + 1) = Some (slice data s e).
Proof.
  intros Hs. destruct (generate_spec data s (e - s + 1)) as (chunks & -> & Hcat).
  simpl. now rewrite Hcat.
Qed.

(** The response to [bytes=<start>-<end>], for any start. *)
Lemma range_request (content_type : string) (vi : option video_info)
    (data : list byte) (start end_ : Z) :
  0 <= start -> 0 <= end_ ->
  let n := Z.of_nat (length data) in
  let e := Z.min end_ (n - 1) in
  exists r,
    stream_file_with_ranges content_type (Some data) (Some (range_of start end_)) vi
      = Response r /\
    status_code r = 206 /\
    dict_get "Content-Range" (headers r)
      = Some ("bytes " +:+ str start +:+ "-" +:+ str e +:+ "/" +:+ str n) /\
    dict_get "Content-Length" (headers r) = Some (str (e - start + 1)) /\
    body_bytes r = Some (slice data start e).
Proof.
  intros Hs He n e.
  destruct (stream_response content_type vi data (Some (range_of start end_)))
    as (r & Hr & Hst & Hcl & Hcr & Hb).
  rewrite requested_range_of in Hcl, Hcr, Hb by assumption. simpl in Hcl, Hcr, Hb.
  change (header_given (Some (range_of start end_))) with true in Hst, Hcr.
  exists r. repeat split; auto.
  unfold body_bytes. rewrite Hb. now apply generate_slice.
Qed.

(** ** RangeStreamer: range requests *)



(** Joining the slices of ranges that tile [lo .. n-1] gives the file from
    [lo] on. *)
Lemma tiles_concat (content_type : string) (vi : option video_info) (data : list byte) :
  forall ranges lo, 0 <= lo -> tiles lo (Z.of_nat (length data)) ranges ->
  exists bodies,
    Forall2 (fun (range : Z * Z) (b : list byte) =>
               exists r,
                 stream_file_with_ranges content_type (Some data)
                   (Some (range_of range.1 range.2)) vi = Response r /\
                 body_bytes r = Some b) ranges bodies /\
    concat bodies = drop (Z.to_nat lo) data.
Proof.
  induction ranges as [|[s e] ranges IH]; intros lo Hlo Ht; simpl in Ht.
  - exists []. split; [constructor|]. simpl. rewrite drop_ge; [reflexivity | lia].
  - destruct Ht as (-> & Hse & Hen & Ht).
    destruct (IH (e + 1)) as (bodies & HF & Hcat); [lia | exact Ht |].
    destruct (range_request content_type vi data lo e) as (r & Hr & _ & _ & _ & Hb);
      [lia | lia |].
    rewrite Z.min_l in Hb by lia.
    exists (slice data lo e :: bodies). split.
    + constructor; [|exact HF]. now exists r.
    + simpl. rewrite Hcat. unfold slice.
      replace (Z.to_nat (e + 1)) with (Z.to_nat lo + Z.to_nat (e - lo + 1))%nat by lia.
      rewrite <- drop_drop. apply take_drop.
Qed.

(** C2.  The bodies of range requests whose intervals tile [0 .. N-1] in
    order, joined, are the file. *)
Theorem range_bodies_reconstruct_file (content_type : string) (vi : option video_info)
    (data : list byte) (ranges : list (Z * Z)) :
  tiles 0 (Z.of_nat (length data)) ranges ->
  exists bodies,
    Forall2 (fun (range : Z * Z) (b : list byte) =>
               exists r,
                 stream_file_with_ranges content_type (Some data)
                   (Some (range_of range.1 range.2)) vi = Response r /\
                 body_bytes r = Some b) ranges bodies /\
    concat bodies = data.
Proof.
  intros Ht. destruct (tiles_concat content_type vi data ranges 0) as (bodies & HF & Hcat);
    [lia | exact Ht |].
  exists bodies. split; [exact HF | exact Hcat].
Qed.

Lemma range_bodies_reconstruct_file_witness :
  exists bodies,
    Forall2 (fun (range : Z * Z) (b : list byte) =>
               exists r,
                 stream_file_with_ranges "video/mp4" (Some [x41; x42; x43; x44; x45])
                   (Some (range_of range.1 range.2)) None = Response r /\
                 body_bytes r = Some b) [(0, 1); (2, 2); (3, 4)] bodies /\
    concat bodies = [x41; x42; x43; x44; x45].
Proof.
  apply (range_bodies_reconstruct_file "video/mp4"%string None
           [x41; x42; x43; x44; x45] [(0, 1); (2, 2); (3, 4)]).
  simpl. repeat split; discriminate.
Defined.



(** Case analysis on the prefix [pre] of an equation [l = pre ++ l'] with
    [l] given: the alignments that clash are closed. *)
Ltac peel H :=
  match type of H with
  | _ = ?pre ++ _ =>
      destruct pre as [|? pre]; cbn in H;
      [ try discriminate H | try discriminate H; injection H as _ H; peel H ]
  end.

(** [bytes=abc-] has no digit after [bytes=]: it is malformed. *)
Lemma bytes_abc_malformed : malformed_range "bytes=abc-".
Proof.
  intros (pre & ds & post & Hne & Hds & H). cbn in H. peel H.
  injection H as H.
  destruct ds as [|d ds]; [congruence|].
  injection H as <- _. inversion Hds as [|? ? Hd _]. discriminate Hd.
Qed.

(** C3, as stated, fails: a malformed header is not answered like an
    absent one.  For [Range: bytes=abc-] the status is 206 and a
    [Content-Range] header is sent; without a Range header the status is
    200 and there is none. *)
Lemma malformed_range_not_as_absent :
  malformed_range "bytes=abc-" /\
  (exists r,
      stream_file_with_ranges "video/mp4" (Some [x41; x42; x43])
        (Some "bytes=abc-"%string) None = Response r /\
      status_code r = 206 /\
      dict_get "Content-Range" (headers r) = Some "bytes 0-2/3"%string) /\
  (exists r,
      stream_file_with_ranges "video/mp4" (Some [x41; x42; x43]) None None = Response r /\
      status_code r = 200 /\
      dict_get "Content-Range" (headers r) = None).
Proof.
  split; [exact bytes_abc_malformed|].
  split; eexists; (split; [vm_compute; reflexivity|]); split; reflexivity.
Qed.

(** C3, amended.  A malformed Range header never gives an error response
    for a file that exists: the body is the whole file and the
    [Content-Length] its size, as without a Range header.  The status and
    the [Content-Range] header follow the presence of the header, not its
    form: 206 and [bytes 0-<N-1>/<N>] when the header is not empty, 200 and
    no [Content-Range] otherwise. *)
Theorem malformed_range_serves_whole_file (content_type : string)
    (vi : option video_info) (data : list byte) (h : string) :
  malformed_range h ->
  let n := Z.of_nat (length data) in
  exists r r0,
    stream_file_with_ranges content_type (Some data) (Some h) vi = Response r /\
    stream_file_with_ranges content_type (Some data) None vi = Response r0 /\
    body r = body r0 /\
    body_bytes r = Some data /\
    dict_get "Content-Length" (headers r) = Some (str n) /\
    dict_get "Content-Length" (headers r0) = Some (str n) /\
    status_code r0 = 200 /\
    dict_get "Content-Range" (headers r0) = None /\
    status_code r = (if nonempty h then 206 else 200) /\
    dict_get "Content-Range" (headers r)
      = (if nonempty h
         then Some ("bytes " +:+ str 0 +:+ "-" +:+ str (n - 1) +:+ "/" +:+ str n)
         else None).
Proof.
  intros Hbad n.
  destruct (stream_response content_type vi data (Some h)) as (r & Hr & Hst & Hcl & Hcr & Hb).
  destruct (stream_response content_type vi data None) as (r0 & Hr0 & Hst0 & Hcl0 & Hcr0 & Hb0).
  fold n in Hcl, Hcr, Hb, Hcl0, Hcr0, Hb0.
  rewrite (requested_range_malformed n h Hbad) in Hcl, Hcr, Hb.
  cbn [requested_range header_given fst snd] in *.
  rewrite Z.min_id in *.
  replace (n - 1 - 0 + 1) with n in * by lia.
  exists r, r0. repeat split; auto.
  - now rewrite Hb, Hb0.
  - unfold body_bytes. rewrite Hb.
    replace n with (n - 1 - 0 + 1) by lia. rewrite generate_slice by lia.
    f_equal. unfold slice. simpl. rewrite drop_0. apply take_ge. subst n. lia.
Qed.

Lemma malformed_range_serves_whole_file_witness :
  exists r r0,
    stream_file_with_ranges "video/mp4" (Some [x41; x42; x43])
      (Some "bytes=abc-"%string) None = Response r /\
    stream_file_with_ranges "video/mp4" (Some [x41; x42; x43]) None None = Response r0 /\
    body r = body r0 /\
    body_bytes r = Some [x41; x42; x43] /\
    dict_get "Content-Length" (headers r) = Some (str 3) /\
    dict_get "Content-Length" (headers r0) = Some (str 3) /\
    status_code r0 = 200 /\
    dict_get "Content-Range" (headers r0) = None /\
    status_code r = 206 /\
    dict_get "Content-Range" (headers r)
      = Some ("bytes " +:+ str 0 +:+ "-" +:+ str (3 - 1) +:+ "/" +:+ str 3).
Proof.
  exact (malformed_range_serves_whole_file "video/mp4"%string None [x41; x42; x43]
           "bytes=abc-"%string bytes_abc_malformed).
Defined.

(** ** StreamingTokenStore *)

Lemma lookup_delete_all (ks : list string) : forall (m : token_table) (k : string),
  fold_left (fun tokens token => delete token tokens) ks m !! k
  = if decide (k ∈ ks) then None else m !! k.
Proof.
  induction ks as [|x ks IH]; intros m k; cbn [fold_left].
  - rewrite decide_False; [reflexivity | apply not_elem_of_nil].
  - rewrite IH. destruct (decide (k ∈ ks)) as [Hin|Hnin].
    + rewrite decide_True; [reflexivity | now right].
    + destruct (decide (k = x)) as [->|Hne].
      * rewrite decide_True by left. apply lookup_delete_eq.
      * rewrite decide_False; [now apply lookup_delete_ne |].
        intros Hin. apply elem_of_cons in Hin as [?|?]; congruence.
Qed.

(** The purge keeps exactly the entries that have not expired. *)
Lemma lookup_cleanup (now : Z) (tokens : token_table) (k : string) :
  cleanup_expired_tokens now tokens !! k
  = match tokens !! k with
    | Some d => if expires d <? now then None else Some d
    | None => None
    end.
Proof.
  unfold cleanup_expired_tokens. rewrite lookup_delete_all.
  destruct (tokens !! k) as [d|] eqn:Hk.
  - destruct (Z.ltb_spec (expires d) now) as [Hexp|Hlive].
    + rewrite decide_True; [reflexivity|].
      apply list_elem_of_fmap. exists (k, d). split; [reflexivity|].
      apply list_elem_of_In, filter_In. split.
      * apply list_elem_of_In, elem_of_map_to_list, Hk.
      * simpl. now apply Z.ltb_lt.
    + rewrite decide_False; [reflexivity|].
      intros Hin. apply list_elem_of_fmap in Hin as ([k' d'] & -> & Hin).
      apply list_elem_of_In, filter_In in Hin as [Hin Hexp]. simpl in *.
      apply list_elem_of_In, elem_of_map_to_list in Hin.
      rewrite Hk in Hin. injection Hin as <-. apply Z.ltb_lt in Hexp. lia.
  - rewrite decide_False; [reflexivity|].
    intros Hin. apply list_elem_of_fmap in Hin as ([k' d'] & -> & Hin).
    apply list_elem_of_In, filter_In in Hin as [Hin _].
    apply list_elem_of_In, elem_of_map_to_list in Hin. simpl in Hk. congruence.
Qed.

(** When a validation succeeds. *)
Lemma validate_true (now : Z) (token filename : string) (tokens : token_table) :
  (validate_streaming_token now token filename tokens).1 = true <->
  exists d, tokens !! token = Some d /\ now <= expires d /\ td_filename d = filename.
Proof.
  unfold validate_streaming_token. destruct (tokens !! token) as [d|].
  - destruct (Z.ltb_spec (expires d) now) as [Hexp|Hlive]; simpl.
    + split; [discriminate|]. intros (d' & [= <-] & Hd & _). lia.
    + destruct (String.eqb_spec (td_filename d) filename) as [Heq|Hne]; simpl.
      * split; [|reflexivity]. intros _. now exists d.
      * split; [discriminate|]. intros (d' & [= <-] & _ & Hd). contradiction.
  - simpl. split; [discriminate|]. intros (d & Hd & _). discriminate.
Qed.

(** A validation that succeeds leaves the table as it was. *)
Lemma validate_keeps (now : Z) (token filename : string) (tokens : token_table) :
  (validate_streaming_token now token filename tokens).1 = true ->
  (validate_streaming_token now token filename tokens).2 = tokens.
Proof.
  unfold validate_streaming_token. destruct (tokens !! token) as [d|]; [|reflexivity].
  destruct (expires d <? now); [discriminate|].
  now destruct (negb (td_filename d =? filename)%string).
Qed.

(** The entry of a token just issued. *)
Lemma lookup_issued (token filename user_id : string) (t_expiry t_created t_cleanup : Z)
    (tokens : token_table) :
  t_cleanup <= t_expiry + STREAM_TOKEN_EXPIRY ->
  (generate_streaming_token token t_expiry t_created t_cleanup filename user_id tokens).2
    !! token
  = Some {| td_filename := filename; td_user_id := user_id;
            expires := t_expiry + STREAM_TOKEN_EXPIRY; created := t_created |}.
Proof.
  intros Ht. unfold generate_streaming_token. simpl.
  rewrite lookup_cleanup, lookup_insert_eq. simpl.
  destruct (Z.ltb_spec (t_expiry + STREAM_TOKEN_EXPIRY) t_cleanup); [lia | reflexivity].
Qed.

(** C5, as stated, fails: validation does not use a token up.  A token
    issued at time 0 for [a.mp4] is accepted at time 10 and again at time
    20, both within its window of 3600. *)
Lemma token_accepted_twice :
  let issued := generate_streaming_token "tok" 0 0 0 "a.mp4" "u1" ∅ in
  let first := validate_streaming_token 10 issued.1 "a.mp4" issued.2 in
  let second := validate_streaming_token 20 issued.1 "a.mp4" first.2 in
  first.1 = true /\ second.1 = true.
Proof. vm_compute. split; reflexivity. Qed.

(** C5, amended.  A token issued for a filename is accepted with that
    filename at every validation made up to its expiry, issuance time plus
    3600, any number of times, and validation leaves the table as it is;
    a validation succeeds exactly when the token is in the table, the clock
    has not passed its expiry and the filename equals the bound one; and
    after every issuance no entry that had expired at the time of the purge
    is left, while the other entries are kept. *)
Theorem token_store_behaviour (tokens : token_table) (token filename user_id : string)
    (t_expiry t_created t_cleanup : Z) :
  t_cleanup <= t_expiry + STREAM_TOKEN_EXPIRY ->
  let issued :=
    (generate_streaming_token token t_expiry t_created t_cleanup filename user_id tokens).2 in
  (STREAM_TOKEN_EXPIRY = 3600) /\
  (forall now, now <= t_expiry + STREAM_TOKEN_EXPIRY ->
     validate_streaming_token now token filename issued = (true, issued)) /\
  (forall now1 now2,
     now1 <= t_expiry + STREAM_TOKEN_EXPIRY -> now2 <= t_expiry + STREAM_TOKEN_EXPIRY ->
     (validate_streaming_token now2 token filename
        (validate_streaming_token now1 token filename issued).2).1 = true) /\
  (forall now tok name (table : token_table),
     (validate_streaming_token now tok name table).1 = true <->
     exists d, table !! tok = Some d /\ now <= expires d /\ td_filename d = name) /\
  (forall k d, issued !! k = Some d -> t_cleanup <= expires d) /\
  (forall k d, k <> token -> tokens !! k = Some d -> t_cleanup <= expires d ->
     issued !! k = Some d).
Proof.
  intros Ht issued.
  assert (forall now, now <= t_expiry + STREAM_TOKEN_EXPIRY ->
            validate_streaming_token now token filename issued = (true, issued)) as Hok.
  { intros now Hnow.
    assert ((validate_streaming_token now token filename issued).1 = true) as H1.
    { apply validate_true. eexists. split; [now apply lookup_issued|]. simpl. auto. }
    pose proof (validate_keeps _ _ _ _ H1) as H2.
    destruct (validate_streaming_token now token filename issued) as [b t].
    simpl in *. now subst. }
  split; [reflexivity|]. split; [exact Hok|]. split; [|split; [|split]].
  - intros now1 now2 H1 H2. rewrite (Hok now1 H1). simpl. now rewrite (Hok now2 H2).
  - intros now tok name table. apply validate_true.
  - intros k d Hk. subst issued. unfold generate_streaming_token in Hk. simpl in Hk.
    rewrite lookup_cleanup in Hk.
    destruct (<[token:=_]> tokens !! k) as [d'|]; [|discriminate].
    destruct (Z.ltb_spec (expires d') t_cleanup); [discriminate|].
    injection Hk as <-. lia.
  - intros k d Hne Hk Hlive. subst issued. unfold generate_streaming_token. simpl.
    rewrite lookup_cleanup, lookup_insert_ne, Hk by congruence.
    destruct (Z.ltb_spec (expires d) t_cleanup); [lia | reflexivity].
Qed.

Lemma token_store_behaviour_witness :
  validate_streaming_token 3600 "tok" "a.mp4"
    (generate_streaming_token "tok" 0 0 0 "a.mp4" "u1" ∅).2
  = (true, (generate_streaming_token "tok" 0 0 0 "a.mp4" "u1" ∅).2).
Proof.
  apply (proj1 (proj2 (token_store_behaviour ∅ "tok" "a.mp4" "u1" 0 0 0
                          ltac:(vm_compute; discriminate))) 3600).
  vm_compute. discriminate.
Defined.

(** ** EpisodeParser *)

Lemma substr_subset (s : list ascii) (b e : nat) (x : ascii) :
  x ∈ substr s b e -> x ∈ s.
Proof.
  unfold substr. intros H.
  apply (subseteq_drop b s), (subseteq_take (e - b) (drop b s)), H.
Qed.

Lemma gaps_subset (s : list ascii) : forall spans from x,
  x ∈ concat (gaps s from spans) -> x ∈ s.
Proof.
  induction spans as [|[b e] spans IH]; intros from x; simpl.
  - rewrite app_nil_r. apply subseteq_drop.
  - intros H. apply elem_of_app in H as [H|H].
    + eapply substr_subset, H.
    + eapply IH, H.
Qed.

(** Removing matches cannot bring in a digit. *)
Lemma sub_remove_digit_free (ic : bool) (re : regex) (s : string) :
  digit_free s -> digit_free (sub_remove ic re s).
Proof.
  unfold digit_free, sub_remove. rewrite chars_pystr. rewrite !Forall_forall.
  intros H x Hx. apply H. eapply gaps_subset, Hx.
Qed.

(** A pattern with a digit node only matches texts that hold a digit. *)
Lemma matches_has_digit (ic : bool) (re : regex) : forall w rest,
  needs_digit re = true -> matches ic re w rest ->
  exists c, c ∈ w /\ is_digit c = true.
Proof.
  unfold needs_digit.
  induction re as [|n re IH]; intros w rest Hn Hm; [discriminate|].
  simpl in Hn. apply orb_true_iff in Hn.
  destruct n as [cl|cl lo hi q|g|g|alts|]; cbn [matches] in Hm.
  - destruct Hm as (a & w' & -> & Ha & Hm). destruct Hn as [Hn|Hn].
    + destruct cl; try discriminate. exists a. split; [left | exact Ha].
    + destruct (IH _ _ Hn Hm) as (c & Hc & Hd). exists c. split; [now right | exact Hd].
  - destruct Hm as (u & w' & -> & Hu & Hlo & _ & Hm). destruct Hn as [Hn|Hn].
    + destruct cl; try discriminate. destruct lo as [|lo]; [discriminate|].
      destruct u as [|a u]; [simpl in Hlo; lia|].
      exists a. split; [left|]. now inversion Hu.
    + destruct (IH _ _ Hn Hm) as (c & Hc & Hd). exists c.
      split; [apply elem_of_app; now right | exact Hd].
  - destruct Hn as [Hn|Hn]; [discriminate|]. exact (IH _ _ Hn Hm).
  - destruct Hn as [Hn|Hn]; [discriminate|]. exact (IH _ _ Hn Hm).
  - destruct Hm as (alt & u & w' & _ & -> & _ & _ & Hm).
    destruct Hn as [Hn|Hn]; [discriminate|].
    destruct (IH _ _ Hn Hm) as (c & Hc & Hd). exists c.
    split; [apply elem_of_app; now right | exact Hd].
  - destruct Hm as [_ Hm]. destruct Hn as [Hn|Hn]; [discriminate|]. exact (IH _ _ Hn Hm).
Qed.

Lemma no_digit_factor (ic : bool) (re : regex) (s : string) :
  needs_digit re = true -> digit_free s ->
  forall pre w rest, chars s = pre ++ w ++ rest -> ~ matches ic re w rest.
Proof.
  intros Hn Hfree pre w rest Hs Hm.
  destruct (matches_has_digit ic re w rest Hn Hm) as (c & Hc & Hd).
  unfold digit_free in Hfree. rewrite Forall_forall in Hfree.
  rewrite (Hfree c) in Hd; [discriminate|].
  rewrite Hs. apply elem_of_app. right. apply elem_of_app. now left.
Qed.

(** Such a pattern is not found in a name without digits. *)
Lemma search_digit_free (ic : bool) (re : regex) (s : string) :
  needs_digit re = true -> digit_free s -> search ic re s = None.
Proof.
  intros Hn Hfree. destruct (search ic re s) as [mt|] eqn:Hs; [|reflexivity].
  unfold search in Hs.
  destruct (search_at_sound _ _ _ _ _ Hs) as (pre & w & rest & Hc & Hm).
  exfalso. exact (no_digit_factor ic re s Hn Hfree pre w rest Hc Hm).
Qed.

Lemma findall_digit_free (s : string) :
  digit_free s -> findall false [plus CDigit] s = [].
Proof.
  intros Hfree. unfold findall, finditer.
  rewrite spans_from_none; [reflexivity|].
  intros pre w rest Hs.
  exact (no_digit_factor false [plus CDigit] s eq_refl Hfree pre w rest Hs).
Qed.

Lemma apply_patterns_digit_free (pats : list (regex * pattern_type)) (clean_name : string)
    (info : episode_info) :
  Forall (fun p => needs_digit p.1 = true) pats -> digit_free clean_name ->
  apply_patterns pats clean_name info = info.
Proof.
  intros Hp Hfree. induction Hp as [|[re ty] pats Hn _ IH]; simpl; [reflexivity|].
  now rewrite (search_digit_free true re clean_name Hn Hfree).
Qed.

(** First match wins: once the patterns before [pattern] are not found and
    [pattern] is, the fields come from its match, whatever follows. *)
Lemma first_match_wins (before after : list (regex * pattern_type)) (pattern : regex)
    (pattern_type : pattern_type) (clean_name : string) (mt : rmatch)
    (info : episode_info) :
  Forall (fun p => search true p.1 clean_name = None) before ->
  search true pattern clean_name = Some mt ->
  apply_patterns (before ++ (pattern, pattern_type) :: after) clean_name info
  = fill_from_match pattern_type clean_name mt info.
Proof.
  intros Hb Hm. induction Hb as [|[re ty] before Hn _ IH]; simpl.
  - now rewrite Hm.
  - simpl in Hn. now rewrite Hn.
Qed.

(** The loop keeps: a season is set only together with an episode. *)
Lemma apply_patterns_season (pats : list (regex * pattern_type)) (clean_name : string)
    (info : episode_info) :
  (is_Some (season info) -> is_Some (episode info)) ->
  is_Some (season (apply_patterns pats clean_name info)) ->
  is_Some (episode (apply_patterns pats clean_name info)).
Proof.
  intros Hinfo. induction pats as [|[re ty] pats IH]; simpl; [exact Hinfo|].
  destruct (search true re clean_name) as [mt|]; [|exact IH].
  destruct ty; simpl; eauto.
Qed.

(** *** Removing the extension *)

Lemma lower_char_dot (a : ascii) : lower_char a = "."%char -> a = "."%char.
Proof.
  destruct a as [[] [] [] [] [] [] [] []]; vm_compute; intros H; congruence.
Qed.

(** What [extension_re] denotes: a dot and a text [u] that is, up to case,
    one of the extensions, at the end of the subject. *)
Lemma extension_re_denotes (w rest : list ascii) :
  matches true extension_re w rest ->
  exists alt u, In alt video_extensions /\ w = "."%char :: u /\
    length u = length (chars alt) /\ lit_prefix true (chars alt) u = true /\
    at_end rest = true.
Proof.
  change extension_re with [One (CLit "."); Open 1; Alt video_extensions; Close 1; Eos].
  cbn [matches].
  intros (a & w' & -> & Ha & alt & u & w'' & Hin & -> & Hlen & Hpre & Hend & ->).
  unfold cls_match, char_eq in Ha. apply Ascii.eqb_eq in Ha.
  symmetry in Ha. apply lower_char_dot in Ha as ->.
  exists alt, u. rewrite app_nil_r. simpl in Hend. repeat split; auto.
Qed.

(** An extension has three characters, or is [webm]; none ends in a
    newline. *)
Lemma video_extension_shape (x : string) :
  In x video_extensions ->
  (length (chars x) = 3%nat \/ x = "webm"%string) /\
  (3 <= length (chars x))%nat /\
  exists l c, chars x = l ++ [c] /\ c <> newline.
Proof.
  unfold video_extensions. simpl.
  intros H.
  repeat (destruct H as [<-|H];
          [ split; [first [left; reflexivity | right; reflexivity]|];
            split; [simpl; lia|];
            match goal with
            | |- exists l c, chars ?s = _ /\ _ =>
                exists (removelast (chars s)), (List.last (chars s) newline)
            end;
            split; [reflexivity | discriminate] |]).
  contradiction.
Qed.

(** Before the last dot of [<base>.<ext>] the pattern does not match. *)
Lemma extension_not_before (ext : string) (a : ascii) (p2 : list ascii) (pos : nat) :
  In ext video_extensions ->
  m true extension_re (a :: p2 ++ "."%char :: chars ext) pos no_caps = None.
Proof.
  intros Hext.
  destruct (m true extension_re (a :: p2 ++ "."%char :: chars ext) pos no_caps)
    as [[e c]|] eqn:Hm; [exfalso | reflexivity].
  destruct (m_sound _ _ _ _ _ _ _ Hm) as (w & rest & Hs & Hw & _).
  destruct (extension_re_denotes _ _ Hw) as (alt & u & Halt & -> & Hlen & Hpre & Hend).
  destruct (video_extension_shape ext Hext) as (_ & Hext3 & l & x & Hlast & Hx).
  destruct (video_extension_shape alt Halt) as (Halt3 & _).
  destruct rest as [|r [|? ?]]; simpl in Hend; try discriminate.
  - rewrite app_nil_r in Hs. injection Hs as -> Hs.
    assert (length u = length p2 + S (length (chars ext)))%nat as Hu
      by (rewrite <- Hs, length_app; reflexivity).
    destruct Halt3 as [H3 | ->].
    + lia.
    + simpl in Hlen. destruct p2; [|simpl in Hu; lia].
      simpl in Hs. subst u. cbn in Hpre. discriminate Hpre.
  - apply Ascii.eqb_eq in Hend as ->.
    rewrite Hlast in Hs.
    change (a :: p2 ++ "."%char :: l ++ [x]) with ((a :: p2) ++ ("."%char :: l) ++ [x]) in Hs.
    rewrite app_assoc in Hs.
    change (("."%char :: u) ++ [newline]) with (("."%char :: u) ++ [newline]) in Hs.
    apply app_inj_tail in Hs as [_ Hs]. contradiction.
Qed.

(** At the last dot it does, up to the end of the name. *)
Lemma extension_at_dot (ext : string) (pos : nat) :
  In ext video_extensions ->
  exists c, m true extension_re ("."%char :: chars ext) pos no_caps
            = Some ((pos + S (length (chars ext)))%nat, c).
Proof.
  intros Hext. unfold video_extensions in Hext. simpl in Hext.
  repeat (destruct Hext as [<-|Hext]; [eexists; cbn; repeat f_equal; lia |]).
  contradiction.
Qed.

(** A prefix in which the pattern matches nowhere holds no span. *)
Lemma spans_from_skip (ic : bool) (re : regex) (tail : list ascii) : forall pre pos,
  (forall p1 a p2 pos', pre = p1 ++ a :: p2 ->
     m ic re (a :: p2 ++ tail) pos' no_caps = None) ->
  spans_from ic re (pre ++ tail) pos 0 = spans_from ic re tail (pos + length pre) 0.
Proof.
  induction pre as [|a pre IH]; intros pos Hno.
  - simpl. now rewrite Nat.add_0_r.
  - cbn [app spans_from]. rewrite (Hno [] a pre pos eq_refl).
    rewrite IH.
    + f_equal. simpl. lia.
    + intros p1 b p2 pos' ->. exact (Hno (a :: p1) b p2 pos' eq_refl).
Qed.

(** Characters inside a span are passed over. *)
Lemma spans_from_inside (ic : bool) (re : regex) :
  (forall pos, m ic re [] pos no_caps = None) ->
  forall s pos, spans_from ic re s pos (length s) = [].
Proof.
  intros Hempty. induction s as [|a s IH]; intros pos; simpl; [|apply IH].
  now rewrite Hempty.
Qed.

(** The whole of [<base>.<ext>] but the extension is kept. *)
Lemma sub_remove_extension (base ext : string) :
  In ext video_extensions ->
  sub_remove true extension_re (base +:+ "." +:+ ext) = base.
Proof.
  intros Hext. unfold sub_remove, finditer.
  rewrite !chars_app. change (chars ".") with ["."%char]. cbn [app].
  rewrite spans_from_skip.
  - destruct (extension_at_dot ext (0 + length (chars base)) Hext) as (c & Hm).
    cbn [spans_from]. rewrite Hm.
    replace (0 + length (chars base) + S (length (chars ext)) - (0 + length (chars base)) - 1)%nat
      with (length (chars ext)) by lia.
    rewrite spans_from_inside by reflexivity.
    cbn [gaps concat]. unfold substr.
    rewrite drop_0, Nat.sub_0_r. simpl (0 + _)%nat.
    rewrite take_app_length.
    rewrite drop_ge by (rewrite length_app; simpl; lia).
    now rewrite !app_nil_r, pystr_chars.
  - intros p1 a p2 pos' _. now apply extension_not_before.
Qed.

(** The loop and the fallback leave [clean_title] as the name without its
    extension. *)
Lemma apply_patterns_clean_title (pats : list (regex * pattern_type)) (clean_name : string)
    (info : episode_info) :
  clean_title (apply_patterns pats clean_name info) = clean_title info.
Proof.
  induction pats as [|[re ty] pats IH]; simpl; [reflexivity|].
  destruct (search true re clean_name); [now destruct ty | exact IH].
Qed.

Lemma clean_title_extract (filename : string) :
  clean_title (extract_episode_info filename) = sub_remove true extension_re filename.
Proof.
  unfold extract_episode_info.
  destruct (name_given _); [now rewrite apply_patterns_clean_title|].
  destruct (last _); cbn [clean_title]; now rewrite apply_patterns_clean_title.
Qed.

(** C6.  The parser strips a known video extension and applies its
    patterns in order, the first one found winning:
    [Breaking Bad S01E05.mp4] gives series [Breaking Bad], season 1,
    episode 5; [Show 07.mkv] gives series [Show], episode 7 and no season;
    a filename without any digit gives neither a series name nor an
    episode. *)
Theorem episode_parser_examples :
  (let info := extract_episode_info "Breaking Bad S01E05.mp4" in
   clean_title info = "Breaking Bad S01E05"%string /\
   series_name info = Some "Breaking Bad"%string /\
   season info = Some 1 /\ episode info = Some 5) /\
  (let info := extract_episode_info "Show 07.mkv" in
   clean_title info = "Show 07"%string /\
   series_name info = Some "Show"%string /\
   season info = None /\ episode info = Some 7) /\
  (forall base ext, In ext video_extensions ->
     clean_title (extract_episode_info (base +:+ "." +:+ ext)) = base) /\
  (forall before after pattern pattern_type clean_name mt info,
     Forall (fun p => search true p.1 clean_name = None) before ->
     search true pattern clean_name = Some mt ->
     apply_patterns (before ++ (pattern, pattern_type) :: after) clean_name info
     = fill_from_match pattern_type clean_name mt info) /\
  (forall filename, digit_free filename ->
     series_name (extract_episode_info filename) = None /\
     episode (extract_episode_info filename) = None /\
     season (extract_episode_info filename) = None).
Proof.
  split; [vm_compute; auto|]. split; [vm_compute; auto|].
  split; [intros base ext Hext; rewrite clean_title_extract;
          now apply sub_remove_extension|].
  split; [exact first_match_wins|].
  intros filename Hfree. unfold extract_episode_info.
  pose proof (sub_remove_digit_free true extension_re filename Hfree) as Hclean.
  rewrite apply_patterns_digit_free; [| | exact Hclean].
  - simpl. rewrite (findall_digit_free _ Hclean). simpl. auto.
  - repeat constructor.
Qed.

Lemma episode_parser_examples_witness :
  series_name (extract_episode_info "Movie.mkv") = None /\
  episode (extract_episode_info "Movie.mkv") = None /\
  season (extract_episode_info "Movie.mkv") = None.
Proof.
  apply (proj2 (proj2 (proj2 (proj2 episode_parser_examples))) "Movie.mkv"%string).
  unfold digit_free. vm_compute. repeat constructor.
Defined.

(** C7.  Whatever the filename, a season is never set without an episode,
    while an episode without a season does occur ([Show 07.mkv]). *)
Theorem season_implies_episode :
  (forall filename,
     is_Some (season (extract_episode_info filename)) ->
     is_Some (episode (extract_episode_info filename))) /\
  (exists filename,
     season (extract_episode_info filename) = None /\
     is_Some (episode (extract_episode_info filename))).
Proof.
  split.
  - intros filename. unfold extract_episode_info.
    set (clean_name := sub_remove true extension_re filename).
    set (info0 := {| original_filename := filename; clean_title := clean_name;
                     season := None; episode := None; series_name := None |}).
    assert (is_Some (season (apply_patterns patterns clean_name info0)) ->
            is_Some (episode (apply_patterns patterns clean_name info0))) as Hloop.
    { apply apply_patterns_season. simpl. intros [x Hx]. discriminate. }
    destruct (name_given (series_name (apply_patterns patterns clean_name info0)));
      [exact Hloop|].
    destruct (last (findall false [plus CDigit] clean_name)); [|exact Hloop].
    simpl. eauto.
  - exists "Show 07.mkv"%string. vm_compute. eauto.
Qed.

Lemma season_implies_episode_witness :
  is_Some (episode (extract_episode_info "Breaking Bad S01E05.mp4")).
Proof.
  apply (proj1 season_implies_episode "Breaking Bad S01E05.mp4"%string).
  vm_compute. eauto.
Defined.

(** ** CodecCompatibilityClassifier *)

Lemma is_prefix_spec (p s : list ascii) :
  is_prefix p s = true <-> exists post, s = p ++ post.
Proof.
  revert s. induction p as [|a p IH]; intros s; simpl.
  - split; [intros _; now exists s | reflexivity].
  - destruct s as [|b s].
    + split; [discriminate | intros (post & H); discriminate].
    + rewrite andb_true_iff, IH. split.
      * intros [Hab (post & ->)]. apply Ascii.eqb_eq in Hab as ->. now exists post.
      * intros (post & [= -> ->]). split; [apply Ascii.eqb_refl | now exists post].
Qed.

(** [p in s] holds exactly when [p] is a factor of [s]. *)
Lemma contains_chars_spec (p s : list ascii) :
  contains_chars p s = true <-> exists pre post, s = pre ++ p ++ post.
Proof.
  induction s as [|b s IH]; simpl; rewrite orb_true_iff, is_prefix_spec.
  - split.
    + intros [(post & H)|H]; [|discriminate]. now exists [], post.
    + intros ([|a pre] & post & H); [left; now exists post | discriminate].
  - rewrite IH. split.
    + intros [(post & H)|(pre & post & ->)].
      * now exists [], post.
      * now exists (b :: pre), post.
    + intros ([|a pre] & post & H).
      * left. now exists post.
      * injection H as -> ->. right. now exists pre, post.
Qed.

Lemma mem_spec (x : string) (l : list string) : mem x l = true <-> In x l.
Proof.
  unfold mem. rewrite existsb_exists. split.
  - intros (y & Hy & Heq). apply String.eqb_eq in Heq. now subst.
  - intros H. exists x. split; [exact H | apply String.eqb_refl].
Qed.

(** When the classifier answers [True], for a probe result that has a
    video stream: the container and video clauses are the specified ones;
    the audio clause also holds for an audio stream whose codec name is,
    up to case, the word [none]. *)
Lemma is_web_compatible_true (vi : video_info) (vs : stream) :
  video_stream vi = Some vs ->
  is_web_compatible (Some vi) = Ret true <->
  (exists fmt, In fmt WEB_COMPATIBLE_containers /\
     exists pre post,
       chars (lower (get_str (format_name (format vi)))) = pre ++ chars fmt ++ post) /\
  In (lower (get_str (codec_name vs))) WEB_COMPATIBLE_video /\
  (audio_stream vi = None \/
   exists aus, audio_stream vi = Some aus /\
     (In (lower (get_str (codec_name aus))) WEB_COMPATIBLE_audio \/
      lower (get_str (codec_name aus)) = "none"%string)).
Proof.
  intros Hvs. unfold is_web_compatible. rewrite Hvs.
  set (c := existsb _ WEB_COMPATIBLE_containers).
  set (v := mem _ WEB_COMPATIBLE_video).
  set (a := orb _ _).
  assert (c = true <-> exists fmt, In fmt WEB_COMPATIBLE_containers /\
            exists pre post,
              chars (lower (get_str (format_name (format vi)))) = pre ++ chars fmt ++ post)
    as Hc.
  { unfold c. rewrite existsb_exists. unfold str_in.
    split; intros (fmt & Hin & H); exists fmt; (split; [exact Hin|]);
      now apply contains_chars_spec. }
  assert (v = true <-> In (lower (get_str (codec_name vs))) WEB_COMPATIBLE_video) as Hv
    by apply mem_spec.
  assert (a = true <->
          (audio_stream vi = None \/
           exists aus, audio_stream vi = Some aus /\
             (In (lower (get_str (codec_name aus))) WEB_COMPATIBLE_audio \/
              lower (get_str (codec_name aus)) = "none"%string))) as Ha.
  { unfold a. destruct (audio_stream vi) as [aus|].
    - rewrite orb_true_iff, mem_spec, String.eqb_eq. split.
      + intros H. right. now exists aus.
      + intros [H|(aus' & [= <-] & H)]; [discriminate | exact H].
    - split; [now left | reflexivity]. }
  rewrite <- Hc, <- Hv, <- Ha.
  destruct c, v, a; simpl; split; try tauto; try discriminate; intros (?&?&?); discriminate.
Qed.

(** The examples of the specification, an absent probe result, and a
    probe result without video stream. *)
Lemma is_web_compatible_examples :
  is_web_compatible (Some probe_mp4_h264_silent) = Ret true /\
  is_web_compatible (Some probe_avi_mpeg4) = Ret false /\
  is_web_compatible None = Ret false /\
  (forall vi, video_stream vi = None -> is_web_compatible (Some vi) = Raise AttributeError).
Proof.
  repeat split; try reflexivity.
  intros vi H. unfold is_web_compatible. now rewrite H.
Qed.

(** C4 on the code.  The classifier answers [True] for a probe result
    whose audio stream is present with a codec outside the audio
    whitelist, when that codec is named [none]: the word the function
    uses for a missing audio stream.  This holds for every probe result
    whose container and video codec pass. *)
Theorem classifier_accepts_codec_named_none :
  (is_web_compatible (Some probe_audio_named_none) = Ret true /\
   audio_stream probe_audio_named_none = Some {| codec_name := Some "none"%string |} /\
   ~ In (lower "none") WEB_COMPATIBLE_audio) /\
  (forall vi vs aus,
     video_stream vi = Some vs ->
     audio_stream vi = Some aus ->
     lower (get_str (codec_name aus)) = "none"%string ->
     existsb (fun fmt => str_in fmt (lower (get_str (format_name (format vi)))))
       WEB_COMPATIBLE_containers = true ->
     In (lower (get_str (codec_name vs))) WEB_COMPATIBLE_video ->
     is_web_compatible (Some vi) = Ret true /\
     ~ In (lower (get_str (codec_name aus))) WEB_COMPATIBLE_audio).
Proof.
  split.
  - repeat split. intros H. apply mem_spec in H. discriminate H.
  - intros vi vs aus Hvs Haus Hnone Hc Hv. split.
    + unfold is_web_compatible. rewrite Hvs, Haus, Hnone, Hc.
      apply mem_spec in Hv. rewrite Hv. reflexivity.
    + rewrite Hnone. intros H. apply mem_spec in H. discriminate H.
Qed.

Lemma classifier_accepts_codec_named_none_witness :
  is_web_compatible (Some probe_audio_named_none) = Ret true /\
  ~ In (lower (get_str (Some "none"%string))) WEB_COMPATIBLE_audio.
Proof.
  apply (proj2 classifier_accepts_codec_named_none probe_audio_named_none
           {| codec_name := Some "h264"%string |} {| codec_name := Some "none"%string |});
    try reflexivity.
  vm_compute. tauto.
Defined.

(** ** SeriesIndex *)

(** The key of a video record, case by case: the folder when it is not
    blank; else the parsed series name, or [Unknown Series] when that name
    is the empty string; an exception when the parser left the name unset. *)
Lemma series_key_of_cases (file : file_data) (info : episode_info) :
  series_key_of file info =
    if nonempty (strip (fd_folder file)) then Ret (normalised (strip (fd_folder file)))
    else match series_name info with
         | Some name => Ret (normalised (str_or (strip name) "Unknown Series"))
         | None => Raise AttributeError
         end.
Proof.
  unfold series_key_of, normalised.
  destruct (nonempty (strip (fd_folder file))); [reflexivity|].
  destruct (series_name info); reflexivity.
Qed.

(** Records that are not videos take no part in the grouping. *)
Lemma collect_series_skips (file : file_data) (files : list file_data)
    (groups : gmap string (list file_data)) :
  fd_type file <> "video"%string ->
  collect_series (file :: files) groups = collect_series files groups.
Proof.
  intros H. simpl. apply String.eqb_neq in H. now rewrite H.
Qed.

(** The fallback key is reached when the parsed name is the empty string,
    as for the root file whose name is two blanks and a number. *)
Lemma unknown_series_reached :
  series_name (extract_episode_info "  12.mkv") = Some ""%string /\
  series_key_of (scanned "" "  12.mkv" "video") (extract_episode_info "  12.mkv")
    = Ret "Unknown Series"%string.
Proof. split; reflexivity. Qed.

(** *** The order inside a group *)

Lemma chars_ltb_asym : forall a b, chars_ltb a b = true -> chars_ltb b a = false.
Proof.
  induction a as [|x a IH]; intros [|y b]; simpl; try congruence.
  destruct (Ascii.eqb_spec x y) as [->|Hne].
  - rewrite Ascii.eqb_refl. apply IH.
  - intros Hlt. destruct (Ascii.eqb_spec y x) as [->|_]; [congruence|].
    apply N.ltb_lt in Hlt. apply N.ltb_ge. lia.
Qed.

Lemma part_eqb_sym (a b : key_part) : part_eqb a b = part_eqb b a.
Proof.
  destruct a, b; simpl; try reflexivity.
  - apply Z.eqb_sym.
  - apply String.eqb_sym.
Qed.

Lemma part_ltb_asym (a b : key_part) : part_ltb a b = true -> part_ltb b a = false.
Proof.
  destruct a, b; simpl; try congruence.
  - intros H. apply Z.ltb_lt in H. apply Z.ltb_ge. lia.
  - apply chars_ltb_asym.
Qed.

Lemma key_ltb_asym : forall a b, key_ltb a b = true -> key_ltb b a = false.
Proof.
  induction a as [|x a IH]; intros [|y b]; simpl; try congruence.
  rewrite (part_eqb_sym y x). destruct (part_eqb x y); [apply IH | apply part_ltb_asym].
Qed.

Lemma sort_key_ltb_asym (a b : Z * Z * list key_part) :
  sort_key_ltb a b = true -> sort_key_ltb b a = false.
Proof.
  destruct a as [[s1 e1] n1], b as [[s2 e2] n2]. simpl.
  rewrite (Z.eqb_sym s2 s1), (Z.eqb_sym e2 e1).
  destruct (Z.eqb_spec s1 s2) as [_|_].
  - destruct (Z.eqb_spec e1 e2) as [_|_]; [apply key_ltb_asym|].
    intros H. apply Z.ltb_lt in H. apply Z.ltb_ge. lia.
  - intros H. apply Z.ltb_lt in H. apply Z.ltb_ge. lia.
Qed.

Lemma insert_sorted_perm (x : file_data) (l : list file_data) :
  insert_sorted x l ≡ₚ x :: l.
Proof.
  induction l as [|y l IH]; cbn [insert_sorted]; [reflexivity|].
  destruct (sort_key_ltb (sort_key x) (sort_key y)); [reflexivity|].
  rewrite IH. apply perm_swap.
Qed.

Lemma insert_sorted_ordered (x : file_data) (l : list file_data) :
  ordered l -> ordered (insert_sorted x l).
Proof.
  induction l as [|y l IH]; intros Hl; [simpl; auto|].
  cbn [insert_sorted].
  destruct (sort_key_ltb (sort_key x) (sort_key y)) eqn:Hxy.
  - split; [now apply sort_key_ltb_asym | exact Hl].
  - destruct Hl as [Hy Hl]. specialize (IH Hl). split; [|exact IH].
    destruct l as [|z l]; [exact Hxy|].
    cbn [insert_sorted]. destruct (sort_key_ltb (sort_key x) (sort_key z)); [exact Hxy | exact Hy].
Qed.

(** Sorting keeps the episodes of a group and puts them in order. *)
Lemma sort_episodes_spec (l : list file_data) :
  sort_episodes l ≡ₚ l /\ ordered (sort_episodes l).
Proof.
  unfold sort_episodes.
  assert (forall acc, ordered acc ->
            fold_left (fun sorted x => insert_sorted x sorted) l acc ≡ₚ acc ++ l /\
            ordered (fold_left (fun sorted x => insert_sorted x sorted) l acc)) as H.
  { induction l as [|x l IH]; intros acc Hacc; simpl.
    - rewrite app_nil_r. auto.
    - destruct (IH (insert_sorted x acc) (insert_sorted_ordered x acc Hacc)) as [Hp Ho].
      split; [|exact Ho]. rewrite Hp, insert_sorted_perm.
      simpl. apply Permutation_middle. }
  apply (H []). exact I.
Qed.

(** The first loop adds to the groups exactly the video records, each
    under its key and with that key written on it. *)
Lemma collect_series_members : forall files groups groups',
  collect_series files groups = Ret groups' ->
  forall k e,
    e ∈ default [] (groups' !! k) <->
    e ∈ default [] (groups !! k) \/
    exists f, f ∈ files /\ fd_type f = "video"%string /\
      series_key_of f (extract_episode_info (fd_filename f)) = Ret k /\
      e = enhance f (extract_episode_info (fd_filename f)) k.
Proof.
  induction files as [|x files IH]; intros groups groups' Hc k e.
  - injection Hc as <-. split; [now left|].
    intros [H|(f & Hf & _)]; [exact H | now apply elem_of_nil in Hf].
  - simpl in Hc. destruct (String.eqb_spec (fd_type x) "video") as [Hx|Hx]; simpl in Hc.
    + destruct (series_key_of x (extract_episode_info (fd_filename x))) as [kx|] eqn:Hk;
        [|discriminate]. simpl in Hc.
      rewrite (IH _ _ Hc k e). split.
      * intros [H|(f & Hf & Hty & Hkf & ->)].
        -- destruct (decide (kx = k)) as [->|Hne].
           ++ rewrite lookup_insert_eq in H. simpl in H.
              apply elem_of_app in H as [H|H]; [now left|].
              apply list_elem_of_singleton in H as ->.
              right. exists x. repeat split; auto. left.
           ++ rewrite lookup_insert_ne in H by exact Hne. now left.
        -- right. exists f. repeat split; auto. now right.
      * intros [H|(f & Hf & Hty & Hkf & ->)].
        -- left. destruct (decide (kx = k)) as [->|Hne].
           ++ rewrite lookup_insert_eq. simpl. apply elem_of_app. now left.
           ++ now rewrite lookup_insert_ne by exact Hne.
        -- apply elem_of_cons in Hf as [->|Hf].
           ++ left. rewrite Hk in Hkf. injection Hkf as ->.
              rewrite lookup_insert_eq. simpl. apply elem_of_app. right.
              now apply list_elem_of_singleton.
           ++ right. exists f. repeat split; auto.
    + rewrite (IH _ _ Hc k e). split.
      * intros [H|(f & Hf & Hty & Hkf & ->)]; [now left|].
        right. exists f. repeat split; auto. now right.
      * intros [H|(f & Hf & Hty & Hkf & ->)]; [now left|].
        apply elem_of_cons in Hf as [->|Hf]; [contradiction|].
        right. exists f. repeat split; auto.
Qed.

(** When grouping returns, a group holds exactly the video records whose
    key is the name of the group, each as the copy that carries the parsed
    fields and the key, and in order. *)
Lemma group_files_by_series_spec (files : list file_data)
    (groups : gmap string (list file_data)) :
  group_files_by_series files = Ret groups ->
  forall k,
    ordered (default [] (groups !! k)) /\
    forall e,
      e ∈ default [] (groups !! k) <->
      exists f, f ∈ files /\ fd_type f = "video"%string /\
        series_key_of f (extract_episode_info (fd_filename f)) = Ret k /\
        e = enhance f (extract_episode_info (fd_filename f)) k.
Proof.
  unfold group_files_by_series. intros Hg k.
  destruct (collect_series files ∅) as [collected|] eqn:Hc; [|discriminate].
  injection Hg as <-. rewrite lookup_fmap.
  pose proof (collect_series_members files ∅ collected Hc k) as Hm.
  destruct (collected !! k) as [eps|]; simpl in *.
  - destruct (sort_episodes_spec eps) as [Hp Ho]. split; [exact Ho|].
    intros e. rewrite Hp, (Hm e), lookup_empty. simpl. split.
    + intros [H|H]; [now apply elem_of_nil in H | exact H].
    + intros H. now right.
  - split; [exact I|]. intros e. rewrite (Hm e), lookup_empty. simpl. split.
    + intros [H|H]; [now apply elem_of_nil in H | exact H].
    + intros H. now right.
Qed.

(** One video record with a blank folder and an unset series name makes
    the whole grouping raise. *)
Lemma collect_series_raises (f : file_data) : forall files groups,
  In f files ->
  fd_type f = "video"%string ->
  strip (fd_folder f) = ""%string ->
  series_name (extract_episode_info (fd_filename f)) = None ->
  collect_series files groups = Raise AttributeError.
Proof.
  induction files as [|x files IH]; intros groups Hin Hty Hfolder Hname; [contradiction|].
  simpl. destruct (String.eqb_spec (fd_type x) "video") as [Hx|Hx]; simpl.
  - rewrite series_key_of_cases.
    destruct Hin as [->|Hin].
    + now rewrite Hfolder, Hname.
    + destruct (nonempty (strip (fd_folder x))); simpl; [now apply IH|].
      destruct (series_name (extract_episode_info (fd_filename x))); simpl;
        [now apply IH | reflexivity].
  - destruct Hin as [->|Hin]; [contradiction | now apply IH].
Qed.

(** C8 on the code.  For a video in the media root whose filename yields
    no series name, grouping does not reach the key [Unknown Series]: the
    parser leaves [series_name] at [None], the lookup
    [episode_info.get('series_name', '')] returns that [None], and
    [.strip()] raises.  One such record among the scanned files (any
    video with a blank folder and no digit in its name) makes the whole
    grouping raise. *)
Theorem grouping_raises_for_root_video_without_name :
  (fd_folder root_movie = ""%string /\
   fd_type root_movie = "video"%string /\
   series_name (extract_episode_info (fd_filename root_movie)) = None /\
   group_files_by_series [root_movie] = Raise AttributeError) /\
  (forall files f,
     In f files ->
     fd_type f = "video"%string ->
     strip (fd_folder f) = ""%string ->
     digit_free (fd_filename f) ->
     group_files_by_series files = Raise AttributeError).
Proof.
  split; [repeat split|].
  intros files f Hin Hty Hfolder Hfree. unfold group_files_by_series.
  rewrite (collect_series_raises f files ∅ Hin Hty Hfolder); [reflexivity|].
  pose proof (sub_remove_digit_free true extension_re (fd_filename f) Hfree) as Hclean.
  unfold extract_episode_info.
  rewrite apply_patterns_digit_free; [| repeat constructor | exact Hclean].
  simpl. now rewrite (findall_digit_free _ Hclean).
Qed.

Lemma grouping_raises_for_root_video_without_name_witness :
  group_files_by_series [show_e01; root_movie] = Raise AttributeError.
Proof.
  apply (proj2 grouping_raises_for_root_video_without_name [show_e01; root_movie] root_movie).
  - right. left. reflexivity.
  - reflexivity.
  - reflexivity.
  - unfold digit_free. vm_compute. repeat constructor.
Defined.

(** The index the navigation loop finds is that of the first record with
    the filename sought. *)
Lemma index_of_bound (filename : string) : forall series_episodes i,
  index_of filename series_episodes i = -1 \/ i <= index_of filename series_episodes i.
Proof.
  induction series_episodes as [|x l IH]; intros i; simpl; [now left|].
  destruct (fd_filename x =? filename)%string; [right; lia|].
  destruct (IH (i + 1)); [now left | right; lia].
Qed.

Lemma index_of_found (filename : string) : forall series_episodes i,
  0 <= i -> i <= index_of filename series_episodes i ->
  exists episode,
    series_episodes !! Z.to_nat (index_of filename series_episodes i - i) = Some episode /\
    fd_filename episode = filename /\
    forall j e, (j < Z.to_nat (index_of filename series_episodes i - i))%nat ->
      series_episodes !! j = Some e -> fd_filename e <> filename.
Proof.
  induction series_episodes as [|x l IH]; intros i Hi0; simpl.
  - lia.
  - destruct (String.eqb_spec (fd_filename x) filename) as [Heq|Hne].
    + intros _. replace (i - i) with 0 by lia. exists x. repeat split; auto.
      intros j e Hj. simpl in Hj. lia.
    + intros Hi.
      assert (i + 1 <= index_of filename l (i + 1)) as Hge
        by (destruct (index_of_bound filename l (i + 1)); lia).
      destruct (IH (i + 1)) as (e & He & Hf & Hfirst); [lia | lia |].
      replace (Z.to_nat (index_of filename l (i + 1) - i))
        with (S (Z.to_nat (index_of filename l (i + 1) - (i + 1)))) by lia.
      exists e. repeat split; auto.
      intros [|j] e' Hj He'; simpl in He'.
      * injection He' as <-. exact Hne.
      * apply (Hfirst j e'); [lia | exact He'].
Qed.

(** Navigation from a video record that carries the key of a group: the
    neighbours of the first record of the group with its filename. *)
Lemma navigation_with_series_key (current_file : file_data) (all_files : list file_data)
    (groups : gmap string (list file_data)) (k : string) (series_episodes : list file_data) :
  fd_type current_file = "video"%string ->
  group_files_by_series all_files = Ret groups ->
  fd_series_key current_file = Some k ->
  nonempty k = true ->
  groups !! k = Some series_episodes ->
  let i := index_of (fd_filename current_file) series_episodes 0 in
  find_next_episode current_file all_files
    = Ret (if (i >=? 0) && (i <? Z.of_nat (length series_episodes) - 1)
           then series_episodes !! Z.to_nat (i + 1) else None) /\
  find_previous_episode current_file all_files
    = Ret (if i >? 0 then series_episodes !! Z.to_nat (i - 1) else None).
Proof.
  intros Hty Hg Hk Hne Hl i. unfold find_next_episode, find_previous_episode.
  rewrite Hty, Hg, Hk. simpl. rewrite Hne, Hl. simpl. fold i.
  split; [now destruct (_ && _) | now destruct (i >? 0)].
Qed.

(** Natural order: digit runs compare as numbers, the rest as lower-cased
    text. *)
Lemma natural_sort_examples :
  key_ltb (natural_sort_key "Episode 2") (natural_sort_key "Episode 10") = true /\
  key_ltb (natural_sort_key "Episode 10") (natural_sort_key "Episode 10b") = true /\
  key_ltb (natural_sort_key "Ep2") (natural_sort_key "Ep10") = true /\
  key_ltb (natural_sort_key "Ep10") (natural_sort_key "Ep2") = false.
Proof. repeat split. Qed.

(** The order of the group [Show], and the navigation from the copies the
    grouping stores: the neighbours are the expected ones. *)
Lemma navigation_from_grouped_copies :
  (exists groups,
     group_files_by_series show_files = Ret groups /\
     groups !! "Show"%string = Some [grouped show_e01; grouped show_e02; grouped show_e10]) /\
  find_next_episode (grouped show_e01) show_files = Ret (Some (grouped show_e02)) /\
  find_next_episode (grouped show_e10) show_files = Ret None /\
  find_previous_episode (grouped show_e02) show_files = Ret (Some (grouped show_e01)) /\
  find_previous_episode (grouped show_e01) show_files = Ret None.
Proof.
  split; [eexists; split; [vm_compute; reflexivity | vm_compute; reflexivity]|].
  repeat split; vm_compute; reflexivity.
Qed.

(** C9 on the code.  The records the callers pass are those of the scan
    with the parsed episode fields; they have no key [series_key], which
    only the copies inside [group_files_by_series] receive.  For them
    [find_next_episode] and [find_previous_episode] answer [None] even
    when the neighbour exists: here the group [Show] holds the three
    episodes in the order 1, 2, 10, yet nothing follows episode 1 and
    nothing precedes episode 2. *)
Theorem navigation_finds_nothing_for_scanned_records :
  (fd_series_key show_e01 = None /\
   fd_type show_e01 = "video"%string /\
   (exists groups,
      group_files_by_series show_files = Ret groups /\
      fd_filename <$> default [] (groups !! "Show"%string)
        = ["Show S01E01.mkv"; "Show S01E02.mkv"; "Show S01E10.mkv"]%string) /\
   find_next_episode show_e01 show_files = Ret None /\
   find_previous_episode show_e02 show_files = Ret None) /\
  (forall current_file all_files groups,
     group_files_by_series all_files = Ret groups ->
     fd_series_key current_file = None ->
     find_next_episode current_file all_files = Ret None /\
     find_previous_episode current_file all_files = Ret None).
Proof.
  split.
  - split; [reflexivity|]. split; [reflexivity|].
    split; [eexists; split; vm_compute; reflexivity|].
    split; vm_compute; reflexivity.
  - intros current_file all_files groups Hg Hk.
    unfold find_next_episode, find_previous_episode. rewrite Hg, Hk. simpl.
    now destruct (negb (fd_type current_file =? "video")%string).
Qed.

Lemma navigation_finds_nothing_for_scanned_records_witness :
  find_next_episode show_e01 show_files = Ret None /\
  find_previous_episode show_e01 show_files = Ret None.
Proof.
  apply (proj2 navigation_finds_nothing_for_scanned_records
           show_e01 show_files
           (sort_episodes <$>
              {[ "Show"%string := [grouped show_e02; grouped show_e01; grouped show_e10] ]})).
  - vm_compute. reflexivity.
  - reflexivity.
Defined.

(** * Further properties of the code *)

(** ** RangeStreamer: every request *)

(** The pattern of the Range header at any offset, in a subject that goes
    on after the second run of digits. *)
Lemma m_range (ds de rest : list ascii) (pos : nat) :
  digits ds -> ds <> [] -> digits de ->
  match rest with a :: _ => is_digit a = false | [] => True end ->
  m false range_re (chars "bytes=" ++ ds ++ "-"%char :: de ++ rest) pos no_caps
  = Some ((pos + 7 + length ds + length de)%nat,
          {| starts := [(2, pos + 7 + length ds); (1, pos + 6)]%nat;
             ends := [(2, pos + 7 + length ds + length de); (1, pos + 6 + length ds)]%nat |}).
Proof.
  intros Hds Hne Hde Hrest.
  change range_re with
    ([One (CLit "b"); One (CLit "y"); One (CLit "t"); One (CLit "e"); One (CLit "s");
      One (CLit "="); Open 1; Rep CDigit 1 None Greedy; Close 1; One (CLit "-");
      Open 2; Rep CDigit 0 None Greedy; Close 2])%char.
  cbn [chars list_ascii_of_string app m cls_match char_eq Ascii.eqb Bool.eqb].
  apply rep_greedy_all.
  - exact Hds.
  - destruct ds; [congruence | simpl; lia].
  - reflexivity.
  - cbn [m cls_match char_eq Ascii.eqb Bool.eqb].
    apply rep_greedy_all.
    + exact Hde.
    + lia.
    + exact Hrest.
    + cbn [m]. unfold open_group, close_group, no_caps. cbn [starts ends]. repeat f_equal; lia.
Qed.




(** The two groups of a match of the pattern at offset [length pre]. *)
Lemma range_groups (h : string) (mt : rmatch) (pre ds de rest : list ascii) :
  chars h = pre ++ chars "bytes=" ++ ds ++ "-"%char :: de ++ rest ->
  m_caps mt = {| starts := [(2, length pre + 7 + length ds); (1, length pre + 6)]%nat;
                 ends := [(2, length pre + 7 + length ds + length de);
                          (1, length pre + 6 + length ds)]%nat |} ->
  group h mt 1 = pystr ds /\ group h mt 2 = pystr de.
Proof.
  intros Hh Hc. unfold group. rewrite Hc, Hh. cbn [starts ends assoc Nat.eqb].
  split; f_equal.
  - replace (pre ++ chars "bytes=" ++ ds ++ "-"%char :: de ++ rest)
      with ((pre ++ chars "bytes=") ++ ds ++ ("-"%char :: de ++ rest))
      by (rewrite <- !app_assoc; reflexivity).
    replace (length pre + 6)%nat with (length (pre ++ chars "bytes="))
      by (rewrite length_app; reflexivity).
    apply substr_mid.
  - replace (pre ++ chars "bytes=" ++ ds ++ "-"%char :: de ++ rest)
      with ((pre ++ chars "bytes=" ++ ds ++ ["-"%char]) ++ de ++ rest)
      by (rewrite <- !app_assoc; reflexivity).
    replace (length pre + 7 + length ds)%nat
      with (length (pre ++ chars "bytes=" ++ ds ++ ["-"%char]))
      by (rewrite !length_app; simpl; lia).
    apply substr_mid.
Qed.


Lemma search_at_here (ic : bool) (re : regex) (s : list ascii) (pos e : nat) (c : caps) :
  m ic re s pos no_caps = Some (e, c) ->
  search_at ic re s pos = Some {| m_start := pos; m_end := e; m_caps := c |}.
Proof. intros H. destruct s; simpl; now rewrite H. Qed.

(** The response depends on the header only through the range read from it
    and through its being empty or not. *)
Lemma stream_same_range (content_type : string) (vi : option video_info)
    (data : list byte) (h1 h2 : option string) :
  requested_range (Z.of_nat (length data)) h1 = requested_range (Z.of_nat (length data)) h2 ->
  header_given h1 = header_given h2 ->
  stream_file_with_ranges content_type (Some data) h1 vi
  = stream_file_with_ranges content_type (Some data) h2 vi.
Proof.
  intros Hreq Hgiven. unfold stream_file_with_ranges. now rewrite Hreq, Hgiven.
Qed.


(** X1.  Without a Range header the whole file is sent: status 200, a
    [Content-Length] equal to the file size, no [Content-Range] header, and
    the chunks of the body concatenate to the file's content. *)
Theorem whole_file_without_range (content_type : string) (vi : option video_info)
    (data : list byte) :
  exists r,
    stream_file_with_ranges content_type (Some data) None vi = Response r /\
    status_code r = 200 /\
    dict_get "Content-Length" (headers r) = Some (str (Z.of_nat (length data))) /\
    dict_get "Content-Range" (headers r) = None /\
    dict_get "Accept-Ranges" (headers r) = Some "bytes"%string /\
    body_bytes r = Some data.
Proof.
  destruct (stream_response content_type vi data None) as (r & Hr & Hst & Hcl & Hcr & Hb).
  cbn [requested_range header_given fst snd] in Hst, Hcl, Hcr, Hb.
  rewrite Z.min_id in Hcl, Hb.
  replace (Z.of_nat (length data) - 1 - 0 + 1) with (Z.of_nat (length data)) in Hcl, Hb by lia.
  exists r. repeat split; auto.
  - unfold stream_file_with_ranges in Hr. cbn [requested_range header_given] in Hr.
    injection Hr as <-. destruct (str_in "video" content_type); reflexivity.
  - unfold body_bytes. rewrite Hb.
    destruct (generate_spec data 0 (Z.of_nat (length data))) as (chunks & -> & Hcat).
    simpl. rewrite Hcat. simpl. rewrite Nat2Z.id. now rewrite take_ge.
Qed.






(** X5.  Text after the range is ignored when it does not go on with a
    digit: [bytes=<s>-<e>] followed by such a text, for instance by the
    further ranges [,200-299] of a multi-range request, gets the response
    of [bytes=<s>-<e>] alone. *)
Theorem text_after_range_ignored (content_type : string) (vi : option video_info)
    (data : list byte) (s e : Z) (tail : string) :
  0 <= s -> 0 <= e ->
  match chars tail with a :: _ => is_digit a = false | [] => True end ->
  stream_file_with_ranges content_type (Some data) (Some (range_of s e +:+ tail)) vi
  = stream_file_with_ranges content_type (Some data) (Some (range_of s e)) vi.
Proof.
  intros Hs He Htail. apply stream_same_range; [|reflexivity].
  rewrite requested_range_of by assumption.
  destruct (str_digits s Hs) as [Hds Hns]. destruct (str_digits e He) as [Hde Hne].
  assert (chars (range_of s e +:+ tail)
          = [] ++ chars "bytes=" ++ chars (str s) ++ "-"%char :: chars (str e) ++ chars tail)
    as Hh.
  { unfold range_of. rewrite !chars_app. simpl. rewrite <- !app_assoc. reflexivity. }
  unfold requested_range. change (nonempty (range_of s e +:+ tail)) with true. cbv iota.
  unfold search. rewrite Hh at 1. cbn [app].
  rewrite (search_at_here _ _ _ _ _ _
             (m_range (chars (str s)) (chars (str e)) (chars tail) 0 Hds Hns Hde Htail)).
  match goal with
  | |- context [group _ ?mt 1] =>
      destruct (range_groups (range_of s e +:+ tail) mt [] (chars (str s)) (chars (str e))
                  (chars tail) Hh eq_refl) as [-> ->]
  end.
  rewrite !pystr_chars.
  replace (nonempty (str e)) with true by (symmetry; now apply nonempty_chars).
  now rewrite !int_str.
Qed.

Lemma text_after_range_ignored_witness :
  stream_file_with_ranges "video/mp4" (Some (repeat x41 1000))
    (Some (range_of 0 99 +:+ ",200-299")) None
  = stream_file_with_ranges "video/mp4" (Some (repeat x41 1000)) (Some (range_of 0 99)) None.
Proof.
  apply (text_after_range_ignored "video/mp4"%string None (repeat x41 1000) 0 99
           ",200-299"%string); [lia | lia | reflexivity].
Defined.

(** ** StreamingTokenStore: purge and failed validations *)

(** X6.  The purge cannot be observed through validation: at a clock
    reading [now], a token is accepted or refused alike whether or not the
    table was purged at an earlier reading [t], and purging at [now] after
    a purge at [t] leaves the same table as purging at [now] alone. *)
Theorem purge_invisible_to_validation (t now : Z) (token filename : string)
    (tokens : token_table) :
  t <= now ->
  (validate_streaming_token now token filename (cleanup_expired_tokens t tokens)).1
  = (validate_streaming_token now token filename tokens).1 /\
  cleanup_expired_tokens now (cleanup_expired_tokens t tokens)
  = cleanup_expired_tokens now tokens.
Proof.
  intros Ht. split.
  - unfold validate_streaming_token. rewrite lookup_cleanup.
    destruct (tokens !! token) as [d|]; [|reflexivity].
    destruct (Z.ltb_spec (expires d) t) as [Hexp|Hlive].
    + destruct (Z.ltb_spec (expires d) now); [reflexivity | lia].
    + destruct (expires d <? now); [reflexivity|].
      now destruct (negb (td_filename d =? filename)%string).
  - apply map_eq. intros k. rewrite !lookup_cleanup.
    destruct (tokens !! k) as [d|]; [|reflexivity].
    destruct (Z.ltb_spec (expires d) t) as [Hexp|Hlive]; [|reflexivity].
    destruct (Z.ltb_spec (expires d) now); [reflexivity | lia].
Qed.

Lemma purge_invisible_to_validation_witness :
  (validate_streaming_token 20 "tok" "a.mp4"
     (cleanup_expired_tokens 10 (generate_streaming_token "tok" 0 0 0 "a.mp4" "u1" ∅).2)).1
  = (validate_streaming_token 20 "tok" "a.mp4"
       (generate_streaming_token "tok" 0 0 0 "a.mp4" "u1" ∅).2).1 /\
  cleanup_expired_tokens 20
    (cleanup_expired_tokens 10 (generate_streaming_token "tok" 0 0 0 "a.mp4" "u1" ∅).2)
  = cleanup_expired_tokens 20 (generate_streaming_token "tok" 0 0 0 "a.mp4" "u1" ∅).2.
Proof.
  apply (purge_invisible_to_validation 10 20 "tok" "a.mp4"
           (generate_streaming_token "tok" 0 0 0 "a.mp4" "u1" ∅).2).
  lia.
Defined.

(** X7.  What a validation does to the table.  It never touches another
    token.  A token met after its expiry is removed, so that every further
    validation of it fails, whatever the clock then reads and whatever
    filename is given.  A token met before its expiry stays as it is, also
    when the filename is the wrong one: a failed attempt with another
    filename does not invalidate the token. *)
Theorem validation_effect_on_table (now : Z) (token filename : string)
    (tokens : token_table) :
  let after := (validate_streaming_token now token filename tokens).2 in
  (forall k, k <> token -> after !! k = tokens !! k) /\
  (forall d, tokens !! token = Some d -> expires d < now ->
     after !! token = None /\
     forall later name, validate_streaming_token later token name after = (false, after)) /\
  (forall d, tokens !! token = Some d -> now <= expires d ->
     after = tokens /\
     (validate_streaming_token now token (td_filename d) after).1 = true).
Proof.
  intros after.
  assert (after = match tokens !! token with
                  | Some d => if expires d <? now then delete token tokens else tokens
                  | None => tokens
                  end) as Hafter.
  { subst after. unfold validate_streaming_token.
    destruct (tokens !! token) as [d|]; [|reflexivity].
    destruct (expires d <? now); [reflexivity|].
    now destruct (negb (td_filename d =? filename)%string). }
  split; [|split].
  - intros k Hk. rewrite Hafter. destruct (tokens !! token) as [d|]; [|reflexivity].
    destruct (expires d <? now); [now apply lookup_delete_ne | reflexivity].
  - intros d Hd Hexp. rewrite Hafter, Hd.
    destruct (Z.ltb_spec (expires d) now); [|lia].
    split; [apply lookup_delete_eq|].
    intros later name. unfold validate_streaming_token. now rewrite lookup_delete_eq.
  - intros d Hd Hlive. rewrite Hafter, Hd.
    destruct (Z.ltb_spec (expires d) now); [lia|].
    split; [reflexivity|]. apply validate_true. exists d. auto.
Qed.

(** ** Stripped texts *)

Lemma lstrip_head (l : list ascii) :
  match lstrip_chars l with a :: _ => is_space a = false | [] => True end.
Proof.
  induction l as [|a l IH]; simpl; [exact I|].
  destruct (is_space a) eqn:Ha; [exact IH | exact Ha].
Qed.

Lemma lstrip_fixed (l : list ascii) :
  match l with a :: _ => is_space a = false | [] => True end -> lstrip_chars l = l.
Proof. destruct l as [|a l]; simpl; [reflexivity|]. now intros ->. Qed.

Lemma lstrip_suffix (l : list ascii) : exists sp, l = sp ++ lstrip_chars l.
Proof.
  induction l as [|a l [sp IH]]; simpl; [now exists []|].
  destruct (is_space a); [|now exists []].
  exists (a :: sp). simpl. now rewrite <- IH.
Qed.

(** Stripping a stripped text changes nothing. *)
Lemma strip_chars_idem (l : list ascii) : strip_chars (strip_chars l) = strip_chars l.
Proof.
  unfold strip_chars.
  set (r := lstrip_chars (rev (lstrip_chars l))).
  assert (lstrip_chars (rev r) = rev r) as ->.
  { apply lstrip_fixed.
    destruct (lstrip_suffix (rev (lstrip_chars l))) as [sp Hsp]. fold r in Hsp.
    destruct (rev r) as [|x r'] eqn:Hr; [exact I|].
    apply (f_equal (@rev ascii)) in Hr. rewrite rev_involutive in Hr. simpl in Hr.
    rewrite Hr in Hsp. apply (f_equal (@rev ascii)) in Hsp.
    rewrite rev_involutive, !rev_app_distr, rev_involutive in Hsp. simpl in Hsp.
    pose proof (lstrip_head l) as Hh. rewrite Hsp in Hh. exact Hh. }
  rewrite rev_involutive. f_equal.
  apply lstrip_fixed. apply lstrip_head.
Qed.

Lemma strip_idem (s : string) : strip (strip s) = strip s.
Proof. unfold strip. rewrite chars_pystr. now rewrite strip_chars_idem. Qed.

Lemma lstrip_subset (l : list ascii) (x : ascii) : x ∈ lstrip_chars l -> x ∈ l.
Proof.
  destruct (lstrip_suffix l) as [sp Hsp]. intros H. rewrite Hsp.
  apply elem_of_app. now right.
Qed.

Lemma strip_chars_subset (l : list ascii) (x : ascii) : x ∈ strip_chars l -> x ∈ l.
Proof.
  unfold strip_chars. intros H.
  apply list_elem_of_In, in_rev, list_elem_of_In, lstrip_subset in H.
  apply list_elem_of_In, in_rev, list_elem_of_In, lstrip_subset in H. exact H.
Qed.

(** ** EpisodeParser: the series name *)

Lemma apply_patterns_series_name (pats : list (regex * pattern_type)) (clean_name : string)
    (info : episode_info) :
  series_name (apply_patterns pats clean_name info) = series_name info \/
  exists x, series_name (apply_patterns pats clean_name info) = Some (strip x).
Proof.
  induction pats as [|[re ty] pats IH]; simpl; [now left|].
  destruct (search true re clean_name) as [mt|]; [|exact IH].
  right. destruct ty; simpl; eauto.
Qed.

(** X8.  Whatever the filename, a series name the parser returns has no
    white space at either end: stripping it again changes nothing. *)
Theorem series_name_is_stripped (filename name : string) :
  series_name (extract_episode_info filename) = Some name -> strip name = name.
Proof.
  unfold extract_episode_info.
  set (clean_name := sub_remove true extension_re filename).
  set (info0 := {| original_filename := filename; clean_title := clean_name;
                   season := None; episode := None; series_name := None |}).
  assert (forall n, series_name (apply_patterns patterns clean_name info0) = Some n ->
            strip n = n) as Hloop.
  { intros n Hn.
    destruct (apply_patterns_series_name patterns clean_name info0) as [H|[x H]];
      rewrite H in Hn.
    - discriminate Hn.
    - injection Hn as <-. apply strip_idem. }
  destruct (name_given (series_name (apply_patterns patterns clean_name info0)));
    [apply Hloop|].
  destruct (last (findall false [plus CDigit] clean_name)); [|apply Hloop].
  cbn [series_name].
  destruct (nonempty (sub_remove false trailing_number_re clean_name)); [|apply Hloop].
  intros [= <-]. apply strip_idem.
Qed.

Lemma series_name_is_stripped_witness : strip "Breaking Bad" = "Breaking Bad"%string.
Proof.
  apply (series_name_is_stripped "Breaking Bad S01E05.mp4" "Breaking Bad").
  vm_compute. reflexivity.
Defined.

(** ** SeriesIndex: the keys and the groups *)

Lemma normalised_shape (s : string) :
  nonempty (normalised s) = true /\
  strip (normalised s) = normalised s /\
  "/"%char ∉ chars (normalised s).
Proof.
  unfold normalised.
  destruct (nonempty (strip (replace_char "/" " " s))) eqn:Hne.
  - split; [exact Hne|]. split; [apply strip_idem|].
    unfold strip. rewrite chars_pystr. intros Hin.
    apply strip_chars_subset in Hin. unfold replace_char in Hin. rewrite chars_pystr in Hin.
    apply list_elem_of_fmap in Hin as (c & Hc & _).
    destruct (Ascii.eqb_spec c "/"); [discriminate | congruence].
  - split; [reflexivity|]. split; [reflexivity|].
    vm_compute. intros Hin. repeat (apply elem_of_cons in Hin as [Hin|Hin]; [discriminate|]).
    now apply elem_of_nil in Hin.
Qed.

Lemma series_key_nonempty (file : file_data) (info : episode_info) (k : string) :
  series_key_of file info = Ret k -> nonempty k = true.
Proof.
  rewrite series_key_of_cases.
  destruct (nonempty (strip (fd_folder file))); [|destruct (series_name info)];
    try discriminate; intros [= <-]; apply normalised_shape.
Qed.

(** X9.  The name of a series group is never empty, has no white space at
    either end and holds no slash, whatever the folder and the filename of
    the record it is computed from. *)
Theorem series_key_shape (file : file_data) (info : episode_info) (k : string) :
  series_key_of file info = Ret k ->
  nonempty k = true /\ strip k = k /\ "/"%char ∉ chars k.
Proof.
  rewrite series_key_of_cases.
  destruct (nonempty (strip (fd_folder file))).
  - intros [= <-]. apply normalised_shape.
  - destruct (series_name info) as [name|]; [|discriminate].
    intros [= <-]. apply normalised_shape.
Qed.

Lemma series_key_shape_witness :
  nonempty "Shows Season 1" = true /\
  strip "Shows Season 1" = "Shows Season 1"%string /\
  "/"%char ∉ chars "Shows Season 1".
Proof.
  apply (series_key_shape (scanned " Shows/Season 1 " "Pilot.mkv" "video")
           (extract_episode_info "Pilot.mkv") "Shows Season 1").
  vm_compute. reflexivity.
Defined.

(** The first loop appends to each group, in scan order, the video records
    of its key. *)
Lemma collect_series_exact : forall files groups groups',
  collect_series files groups = Ret groups' ->
  forall k,
    default [] (groups' !! k)
    = default [] (groups !! k) ++
      map (fun f => enhance f (extract_episode_info (fd_filename f)) k)
        (List.filter (in_series k) files) /\
    (groups' !! k = None <-> groups !! k = None /\ List.filter (in_series k) files = []).
Proof.
  induction files as [|x files IH]; intros groups groups' Hc k.
  - injection Hc as <-. simpl. rewrite app_nil_r. split; [reflexivity | tauto].
  - simpl in Hc. cbn [List.filter].
    replace (in_series k x)
      with (String.eqb (fd_type x) "video" &&
            match series_key_of x (extract_episode_info (fd_filename x)) with
            | Ret k' => String.eqb k' k
            | Raise _ => false
            end) by reflexivity.
    destruct (String.eqb_spec (fd_type x) "video") as [Hx|Hx]; simpl in Hc.
    + destruct (series_key_of x (extract_episode_info (fd_filename x))) as [kx|] eqn:Hk;
        [|discriminate]. simpl in Hc.
      destruct (IH _ _ Hc k) as [Heq Hnone]. cbn [andb].
      destruct (String.eqb_spec kx k) as [->|Hne].
      * rewrite lookup_insert_eq in Heq, Hnone. simpl in Heq.
        split.
        -- rewrite Heq. cbn [map]. rewrite <- app_assoc. reflexivity.
        -- rewrite Hnone. split; [intros [H _]; discriminate H | intros [_ H]; discriminate H].
      * rewrite lookup_insert_ne in Heq, Hnone by exact Hne.
        split; [exact Heq | exact Hnone].
    + cbn [andb]. exact (IH _ _ Hc k).
Qed.

(** X10.  When grouping returns, the groups partition the video records by
    series key: the group of a key holds, as copies with the parsed fields
    and the key, exactly the video records of that key, as often as they
    occur and sorted; no group is empty, and records of other types are in
    no group. *)
Theorem groups_partition_videos (files : list file_data)
    (groups : gmap string (list file_data)) :
  group_files_by_series files = Ret groups ->
  forall k,
    let members :=
      map (fun f => enhance f (extract_episode_info (fd_filename f)) k)
        (List.filter (in_series k) files) in
    (groups !! k = None <-> members = []) /\
    (forall eps, groups !! k = Some eps -> eps ≡ₚ members /\ ordered eps /\ eps <> []).
Proof.
  intros Hg k members. unfold group_files_by_series in Hg.
  destruct (collect_series files ∅) as [collected|] eqn:Hc; [|discriminate].
  injection Hg as <-. rewrite lookup_fmap.
  destruct (collect_series_exact files ∅ collected Hc k) as [Heq Hnone].
  rewrite lookup_empty in Heq, Hnone. simpl in Heq. fold members in Heq.
  assert (members = [] <-> List.filter (in_series k) files = []) as Hm.
  { subst members. split; [apply map_eq_nil | now intros ->]. }
  split.
  - rewrite Hm. destruct (collected !! k) as [eps|]; simpl.
    + split; [discriminate|]. intros H.
      assert (Some eps = None) as H' by (apply Hnone; auto). discriminate H'.
    + split; [|reflexivity]. intros _. now apply Hnone.
  - intros eps Heps. destruct (collected !! k) as [eps0|] eqn:Hk; [|discriminate].
    simpl in Heps, Heq. injection Heps as <-. subst eps0.
    destruct (sort_episodes_spec members) as [Hp Ho].
    split; [exact Hp|]. split; [exact Ho|].
    intros Hnil. rewrite Hnil in Hp. apply Permutation_nil in Hp.
    apply Hm in Hp. assert (Some members = None) as H by (apply Hnone; auto).
    discriminate H.
Qed.

Lemma groups_partition_videos_witness :
  let members :=
    map (fun f => enhance f (extract_episode_info (fd_filename f)) "Show")
      (List.filter (in_series "Show") show_files) in
  ((sort_episodes <$>
      ({[ "Show"%string := [grouped show_e02; grouped show_e01; grouped show_e10] ]}
         : gmap string (list file_data))) !! "Show"%string = None <-> members = []) /\
  (forall eps,
     (sort_episodes <$>
        ({[ "Show"%string := [grouped show_e02; grouped show_e01; grouped show_e10] ]}
           : gmap string (list file_data))) !! "Show"%string = Some eps ->
     eps ≡ₚ members /\ ordered eps /\ eps <> []).
Proof.
  apply (groups_partition_videos show_files
           (sort_episodes <$>
              {[ "Show"%string := [grouped show_e02; grouped show_e01; grouped show_e10] ]})).
  vm_compute. reflexivity.
Defined.

Lemma index_of_nodup : forall (l : list file_data) (j : Z) (i : nat) (x : file_data),
  NoDup (fd_filename <$> l) -> l !! i = Some x ->
  index_of (fd_filename x) l j = j + Z.of_nat i.
Proof.
  induction l as [|y l IH]; intros j i x Hnd Hi; [discriminate Hi|].
  apply NoDup_cons in Hnd as [Hy Hnd]. destruct i as [|i]; simpl in Hi |- *.
  - injection Hi as ->. rewrite String.eqb_refl. lia.
  - destruct (String.eqb_spec (fd_filename y) (fd_filename x)) as [Heq|_].
    + exfalso. apply Hy. rewrite Heq. apply list_elem_of_fmap. exists x.
      split; [reflexivity|]. eapply list_elem_of_lookup_2, Hi.
    + rewrite (IH (j + 1) i x Hnd Hi). lia.
Qed.

(** X11.  Navigation follows the order of the group.  From a record of a
    group whose filenames are pairwise different, [find_next_episode]
    answers the record that follows it in the group and
    [find_previous_episode] the one before it, and nothing at the two ends
    of the group. *)
Theorem navigation_follows_group_order (all_files : list file_data)
    (groups : gmap string (list file_data)) (k : string) (eps : list file_data)
    (i : nat) (cur : file_data) :
  group_files_by_series all_files = Ret groups ->
  groups !! k = Some eps ->
  NoDup (fd_filename <$> eps) ->
  eps !! i = Some cur ->
  find_next_episode cur all_files = Ret (eps !! S i) /\
  find_previous_episode cur all_files = Ret (match i with O => None | S j => eps !! j end).
Proof.
  intros Hg Hk Hnd Hi.
  destruct (group_files_by_series_spec all_files groups Hg k) as [_ Hmem].
  rewrite Hk in Hmem. simpl in Hmem.
  destruct (proj1 (Hmem cur)) as (f & _ & Hty & Hkey & ->).
  { eapply list_elem_of_lookup_2, Hi. }
  pose proof (series_key_nonempty _ _ _ Hkey) as Hne.
  destruct (navigation_with_series_key
              (enhance f (extract_episode_info (fd_filename f)) k)
              all_files groups k eps Hty Hg eq_refl Hne Hk) as [Hnext Hprev].
  rewrite (index_of_nodup eps 0 i _ Hnd Hi) in Hnext, Hprev.
  rewrite Hnext, Hprev. split; f_equal.
  - destruct (Z.geb_spec (0 + Z.of_nat i) 0); [|lia]. cbn [andb].
    destruct (Z.ltb_spec (0 + Z.of_nat i) (Z.of_nat (length eps) - 1)).
    + f_equal. lia.
    + symmetry. apply lookup_ge_None. lia.
  - destruct i as [|j]; [reflexivity|].
    destruct (Z.gtb_spec (0 + Z.of_nat (S j)) 0); [|lia]. f_equal. lia.
Qed.

Lemma navigation_follows_group_order_witness :
  find_next_episode (grouped show_e02) show_files
  = Ret ([grouped show_e01; grouped show_e02; grouped show_e10] !! 2%nat) /\
  find_previous_episode (grouped show_e02) show_files
  = Ret ([grouped show_e01; grouped show_e02; grouped show_e10] !! 0%nat).
Proof.
  apply (navigation_follows_group_order show_files
           (sort_episodes <$>
              {[ "Show"%string := [grouped show_e02; grouped show_e01; grouped show_e10] ]})
           "Show" [grouped show_e01; grouped show_e02; grouped show_e10] 1
           (grouped show_e02)).
  - vm_compute. reflexivity.
  - vm_compute. reflexivity.
  - refine (bool_decide_unpack _ _). vm_compute. reflexivity.
  - reflexivity.
Defined.

(** ** Natural sort keys *)






















(** ** Upload checks *)

Lemma after_last_none (sep : ascii) (cs : list ascii) :
  after_last sep cs = None <-> sep ∉ cs.
Proof.
  induction cs as [|c cs IH]; simpl.
  - split; [intros _; apply not_elem_of_nil | reflexivity].
  - destruct (after_last sep cs) as [ext|].
    + split; [discriminate|]. intros H. exfalso.
      assert (sep ∉ cs) as H' by (intros Hin; apply H; now right).
      apply IH in H'. discriminate H'.
    + destruct (Ascii.eqb_spec c sep) as [->|Hne].
      * split; [discriminate|]. intros H. exfalso. apply H. left.
      * split; [|reflexivity]. intros _ Hin.
        apply elem_of_cons in Hin as [Heq|Hin]; [congruence|].
        now apply (proj1 IH).
Qed.

(** The text after the last separator. *)
Lemma after_last_spec (sep : ascii) (cs ext : list ascii) :
  after_last sep cs = Some ext <-> exists base, cs = base ++ sep :: ext /\ sep ∉ ext.
Proof.
  revert ext. induction cs as [|c cs IH]; intros ext; simpl.
  - split; [discriminate|]. intros ([|? ?] & H & _); discriminate H.
  - destruct (after_last sep cs) as [e|] eqn:He.
    + split.
      * intros [= <-]. destruct (proj1 (IH e) eq_refl) as (base & -> & Hno).
        now exists (c :: base).
      * intros ([|b base] & H & Hno); simpl in H; injection H as H1 H2.
        -- subst. apply after_last_none in Hno. congruence.
        -- f_equal. assert (Some e = Some ext) as [= ->]; [|reflexivity].
           apply IH. now exists base.
    + apply after_last_none in He. destruct (Ascii.eqb_spec c sep) as [->|Hne].
      * split.
        -- intros [= <-]. now exists [].
        -- intros ([|b base] & H & Hno); simpl in H.
           ++ now injection H as ->.
           ++ injection H as H1 H2.
              exfalso. apply He. rewrite H2. apply elem_of_app. right. left.
      * split; [discriminate|].
        intros ([|b base] & H & Hno); simpl in H; injection H as H1 H2; [congruence|].
        exfalso. apply He. rewrite H2. apply elem_of_app. right. left.
Qed.

Lemma dot_in (filename : string) : str_in "." filename = true <-> "."%char ∈ chars filename.
Proof.
  unfold str_in. rewrite contains_chars_spec. split.
  - intros (pre & post & ->). apply elem_of_app. right. left.
  - intros H. apply list_elem_of_split in H as (pre & post & ->). now exists pre, post.
Qed.

Lemma file_type_of_sound (ext : string) : forall table t,
  file_type_of ext table = Some t ->
  exists extensions, In (t, extensions) table /\ In ext extensions.
Proof.
  induction table as [|[ft exts] table IH]; intros t; simpl; [discriminate|].
  destruct (mem ext exts) eqn:Hm.
  - intros [= <-]. exists exts. split; [now left | now apply mem_spec].
  - intros H. destruct (IH t H) as (e & Hin & He). exists e. split; [now right | exact He].
Qed.

Lemma file_type_of_complete (ext : string) : forall table t extensions,
  In (t, extensions) table -> In ext extensions ->
  exists t', file_type_of ext table = Some t'.
Proof.
  induction table as [|[ft exts] table IH]; intros t extensions Hin He; [contradiction|].
  simpl. destruct (mem ext exts) eqn:Hm; [now exists ft|].
  destruct Hin as [[= -> ->]|Hin].
  - apply mem_spec in He. congruence.
  - exact (IH t extensions Hin He).
Qed.

(** No extension is allowed for two file types. *)
Lemma allowed_extensions_disjoint (t t' : string) (exts exts' : list string) (ext : string) :
  In (t, exts) ALLOWED_EXTENSIONS -> In (t', exts') ALLOWED_EXTENSIONS ->
  In ext exts -> In ext exts' -> t = t'.
Proof.
  assert (forallb (fun '(a, ea) =>
            forallb (fun '(b, eb) =>
              String.eqb a b || forallb (fun e => negb (mem e eb)) ea)
              ALLOWED_EXTENSIONS) ALLOWED_EXTENSIONS = true) as Hall
    by (vm_compute; reflexivity).
  intros Hin Hin' He He'.
  rewrite forallb_forall in Hall. specialize (Hall _ Hin). cbv beta iota in Hall.
  rewrite forallb_forall in Hall. specialize (Hall _ Hin'). cbv beta iota in Hall.
  apply orb_true_iff in Hall as [Heq|Hdis]; [now apply String.eqb_eq|].
  rewrite forallb_forall in Hdis. specialize (Hdis _ He).
  apply mem_spec in He'. rewrite He' in Hdis. discriminate Hdis.
Qed.

(** X14.  A filename is allowed exactly when the text after its last dot,
    lower-cased, is one of the extensions of [Config.ALLOWED_EXTENSIONS],
    and the type returned is the one that lists it; only the last extension
    counts, so a name without a dot, one that ends in a dot and one whose
    last extension is unknown are refused.  The answer is always
    [(True, type)] or [(False, None)]. *)
Theorem allowed_file_spec :
  (forall filename t,
     allowed_file filename = (true, Some t) <->
     exists base ext extensions,
       chars filename = base ++ "."%char :: ext /\ ("."%char ∉ ext) /\
       In (t, extensions) ALLOWED_EXTENSIONS /\ In (lower (pystr ext)) extensions) /\
  (forall filename,
     allowed_file filename = (false, None) \/
     exists t, allowed_file filename = (true, Some t)).
Proof.
  split.
  - intros filename t. unfold allowed_file. split.
    + destruct (str_in "." filename); [|discriminate]. cbn [negb].
      destruct (after_last "." (chars filename)) as [ext|] eqn:Hext; [|discriminate].
      destruct (file_type_of (lower (pystr ext)) ALLOWED_EXTENSIONS) as [t'|] eqn:Ht;
        [|discriminate].
      intros [= <-]. apply after_last_spec in Hext as (base & Hb & Hno).
      destruct (file_type_of_sound _ _ _ Ht) as (exts & Hin & He).
      now exists base, ext, exts.
    + intros (base & ext & exts & Hb & Hno & Hin & He).
      assert (str_in "." filename = true) as ->.
      { apply dot_in. rewrite Hb. apply elem_of_app. right. left. }
      cbn [negb].
      assert (after_last "." (chars filename) = Some ext) as ->.
      { apply after_last_spec. now exists base. }
      destruct (file_type_of_complete _ _ _ _ Hin He) as [t' Ht]. rewrite Ht.
      destruct (file_type_of_sound _ _ _ Ht) as (exts' & Hin' & He').
      now rewrite (allowed_extensions_disjoint _ _ _ _ _ Hin' Hin He' He).
  - intros filename. unfold allowed_file.
    destruct (negb (str_in "." filename)); [now left|].
    destruct (after_last "." (chars filename)) as [ext|]; [|now left].
    destruct (file_type_of (lower (pystr ext)) ALLOWED_EXTENSIONS) as [t|];
      [right; now exists t | now left].
Qed.




(** ** Folder thumbnails *)

Lemma split_on_cons (sep : ascii) (cs : list ascii) :
  exists part parts, split_on sep cs = part :: parts.
Proof.
  destruct cs as [|c cs]; simpl; [now eexists _, _|].
  destruct (Ascii.eqb c sep); [now eexists _, _|].
  destruct (split_on sep cs); now eexists _, _.
Qed.

Lemma split_on_whole (sep : ascii) (cs : list ascii) :
  sep ∉ cs -> split_on sep cs = [cs].
Proof.
  induction cs as [|c cs IH]; intros Hno; simpl; [reflexivity|].
  destruct (Ascii.eqb_spec c sep) as [->|_]; [exfalso; apply Hno; left|].
  rewrite IH; [reflexivity|]. intros Hin. apply Hno. now right.
Qed.

(** Splitting a path whose last component is [child]. *)
Lemma split_on_child (sep : ascii) (child : list ascii) : sep ∉ child ->
  forall parent, split_on sep (parent ++ sep :: child) = split_on sep parent ++ [child].
Proof.
  intros Hno. induction parent as [|a parent IH]; simpl.
  - rewrite Ascii.eqb_refl. now rewrite split_on_whole.
  - destruct (Ascii.eqb a sep); rewrite IH; [reflexivity|].
    destruct (split_on_cons sep parent) as (part & parts & ->). reflexivity.
Qed.

(** Joining the components of a path gives the path back. *)
Lemma join_split_on (sep : ascii) (cs : list ascii) : join sep (split_on sep cs) = cs.
Proof.
  induction cs as [|c cs IH]; simpl; [reflexivity|].
  destruct (split_on_cons sep cs) as (part & parts & Hs). rewrite Hs in IH |- *.
  destruct (Ascii.eqb_spec c sep) as [->|_].
  - change (join sep ([] :: part :: parts)) with (sep :: join sep (part :: parts)).
    now rewrite IH.
  - rewrite <- IH. destruct parts; reflexivity.
Qed.

Lemma has_slash_not_root (parent child : string) :
  String.eqb (parent +:+ "/" +:+ child) "" = false /\
  String.eqb (parent +:+ "/" +:+ child) "Root" = false.
Proof.
  assert (forall s, "/"%char ∉ chars s -> String.eqb (parent +:+ "/" +:+ child) s = false) as H.
  { intros s Hs. apply String.eqb_neq. intros Heq. apply Hs. rewrite <- Heq.
    rewrite !chars_app. apply elem_of_app. right. left. }
  split; apply H; vm_compute; intros Hin;
    repeat (apply elem_of_cons in Hin as [Hin|Hin]; [discriminate|]);
    now apply elem_of_nil in Hin.
Qed.

(** X16.  A folder without an entry of its own gets the thumbnail of its
    parent folder when the parent's entry enables inheritance, also when
    that entry holds no thumbnail, in which case the answer is [None] and
    no automatic thumbnail is looked for. *)
Theorem subfolder_inherits_parent_thumbnail
    (folder_thumbnails : gmap string thumbnail_entry) (auto : option string)
    (parent child file_type : string) (u : option string) :
  "/"%char ∉ chars child ->
  folder_thumbnails !! (file_type +:+ "/" +:+ parent +:+ "/" +:+ child) = None ->
  folder_thumbnails !! (file_type +:+ "/" +:+ parent) = Some (Custom u true) ->
  get_folder_thumbnail folder_thumbnails auto (parent +:+ "/" +:+ child) file_type = Url u.
Proof.
  intros Hchild Hown Hparent. unfold get_folder_thumbnail, folder_key.
  destruct (has_slash_not_root parent child) as [-> ->]. cbn [orb].
  rewrite Hown. rewrite !chars_app. change (chars "/") with ["/"%char]. cbn [app].
  rewrite (split_on_child "/" (chars child) Hchild).
  destruct (split_on_cons "/" (chars parent)) as (part & parts & Hs).
  rewrite length_app, Nat.add_1_r. cbn [inherit_from].
  rewrite take_app_length. rewrite Hs at 1. cbn [length].
  rewrite join_split_on, pystr_chars. now rewrite Hparent.
Qed.

Lemma subfolder_inherits_parent_thumbnail_witness :
  get_folder_thumbnail
    {[ "video/Shows"%string := Custom (Some "shows.jpg"%string) true ]} None
    ("Shows" +:+ "/" +:+ "Season 1") "video"
  = Url (Some "shows.jpg"%string).
Proof.
  apply (subfolder_inherits_parent_thumbnail
           {[ "video/Shows"%string := Custom (Some "shows.jpg"%string) true ]} None
           "Shows" "Season 1" "video" (Some "shows.jpg"%string)).
  - vm_compute. intros Hin.
    repeat (apply elem_of_cons in Hin as [Hin|Hin]; [discriminate|]).
    now apply elem_of_nil in Hin.
  - vm_compute. reflexivity.
  - vm_compute. reflexivity.
Defined.

Lemma inherit_from_none (folder_thumbnails : gmap string thumbnail_entry)
    (file_type : string) (path_parts : list (list ascii)) :
  (forall k u, folder_thumbnails !! k <> Some (Custom u true)) ->
  forall n, inherit_from folder_thumbnails file_type path_parts n = None.
Proof.
  intros Hno. induction n as [|i IH]; [reflexivity|]. cbn [inherit_from].
  match goal with
  | |- context [folder_thumbnails !! ?k] =>
      pose proof (Hno k) as Hk; destruct (folder_thumbnails !! k) as [[u [|]| |]|]
  end; try exact IH.
  exfalso. now apply (Hk u).
Qed.

(** X17.  Nothing is inherited without the flag: when no entry of the
    thumbnails file is a dictionary with [inherit_to_children] set, as in a
    file that holds only strings in the legacy format, a folder gets its
    own entry if it has one and the automatic thumbnail otherwise, never
    the thumbnail of an ancestor. *)
Theorem thumbnail_not_inherited_without_flag
    (folder_thumbnails : gmap string thumbnail_entry) (auto : option string)
    (folder_path file_type : string) :
  (forall k u, folder_thumbnails !! k <> Some (Custom u true)) ->
  get_folder_thumbnail folder_thumbnails auto folder_path file_type
  = match folder_thumbnails !! folder_key folder_path file_type with
    | Some e => Entry e
    | None => Url auto
    end.
Proof.
  intros Hno. unfold get_folder_thumbnail.
  destruct (folder_thumbnails !! folder_key folder_path file_type); [reflexivity|].
  now rewrite inherit_from_none.
Qed.

Lemma thumbnail_not_inherited_without_flag_witness :
  get_folder_thumbnail {[ "video/Shows"%string := Legacy "shows.jpg" ]} (Some "auto.jpg"%string)
    "Shows/Season 1" "video"
  = match ({[ "video/Shows"%string := Legacy "shows.jpg" ]} : gmap string thumbnail_entry)
          !! folder_key "Shows/Season 1" "video" with
    | Some e => Entry e
    | None => Url (Some "auto.jpg"%string)
    end.
Proof.
  apply (thumbnail_not_inherited_without_flag
           {[ "video/Shows"%string := Legacy "shows.jpg" ]} (Some "auto.jpg"%string)
           "Shows/Season 1" "video").
  intros k u H. apply lookup_singleton_Some in H as [_ H]. discriminate H.
Defined.

(** ** Stream selection *)

(** The loop keeps what is set and otherwise takes the first stream of
    each type. *)
Lemma select_streams_spec : forall streams video_stream audio_stream,
  select_streams streams video_stream audio_stream
  = (match video_stream with
     | Some _ => video_stream
     | None => ps_stream <$> List.find (fun s => type_is s "video") streams
     end,
     match audio_stream with
     | Some _ => audio_stream
     | None => ps_stream <$> List.find (fun s => type_is s "audio") streams
     end).
Proof.
  induction streams as [|s streams IH]; intros v a; cbn [select_streams List.find].
  - now destruct v, a.
  - assert (type_is s "video" = true -> type_is s "audio" = false) as Hexcl.
    { unfold type_is. destruct (codec_type s) as [t|]; [|discriminate].
      intros Hv. apply String.eqb_eq in Hv as ->. reflexivity. }
    destruct (type_is s "video") eqn:Hv.
    + rewrite (Hexcl eq_refl). destruct v as [v|]; cbn [unset andb]; rewrite IH; reflexivity.
    + cbn [andb]. destruct (type_is s "audio"), a as [a|]; cbn [unset andb];
        rewrite IH; reflexivity.
Qed.

(** X18.  [get_video_info] reports as video stream the first stream whose
    [codec_type] is [video] and as audio stream the first whose type is
    [audio], whatever their order and whatever other streams there are.
    For a file without any video stream the field [video_stream] is
    therefore [None], and [is_web_compatible] raises on such a result
    instead of answering [False]. *)
Theorem stream_selection (streams : list probe_stream) :
  select_streams streams None None
  = (ps_stream <$> List.find (fun s => type_is s "video") streams,
     ps_stream <$> List.find (fun s => type_is s "audio") streams) /\
  ((forall s, In s streams -> type_is s "video" = false) ->
   forall vi, video_stream vi = (select_streams streams None None).1 ->
     is_web_compatible (Some vi) = Raise AttributeError).
Proof.
  split; [apply select_streams_spec|].
  intros Hno vi Hvi. rewrite select_streams_spec in Hvi. cbn [fst] in Hvi.
  destruct (List.find (fun s => type_is s "video") streams) as [s|] eqn:Hf.
  - apply find_some in Hf as [Hin Hs]. rewrite (Hno s Hin) in Hs. discriminate Hs.
  - unfold is_web_compatible. now rewrite Hvi.
Qed.

(** ** User ids *)

Lemma str_inj (a b : Z) : 0 <= a -> 0 <= b -> str a = str b -> a = b.
Proof.
  intros Ha Hb H. rewrite <- (int_str a Ha), <- (int_str b Hb). now rewrite H.
Qed.

(** X19.  In a user dictionary whose ids are the numbers 1 to its size, as
    it is when users are only ever added by [create_user], the id given to
    a new user is not in use: no user is replaced, the new user is found
    under its id, the other users stay as they are, and the ids are again
    the numbers 1 to the size. *)
Theorem create_user_keeps_ids (username password_hash : string) (is_admin : bool)
    (users : gmap string user) :
  consecutive_ids users ->
  let '(new_user, users') := create_user username password_hash is_admin users in
  users !! u_id new_user = None /\
  get_user (u_id new_user) users' = Some new_user /\
  (forall k, k <> u_id new_user -> get_user k users' = get_user k users) /\
  size users' = S (size users) /\
  consecutive_ids users'.
Proof.
  intros Hids. unfold create_user, get_user. cbn [u_id].
  set (n := Z.of_nat (size users)).
  assert (users !! str (n + 1) = None) as Hfresh.
  { destruct (users !! str (n + 1)) as [u|] eqn:Hu; [|reflexivity]. exfalso.
    destruct (proj1 (Hids (str (n + 1))) (ex_intro _ u Hu)) as (i & Hi & Heq).
    apply str_inj in Heq; lia. }
  assert (size (<[str (n + 1) := {| u_id := str (n + 1); u_username := username;
                                    u_password_hash := password_hash;
                                    u_is_admin := is_admin |}]> users) = S (size users))
    as Hsize by now apply map_size_insert_None.
  split; [exact Hfresh|]. split; [apply lookup_insert_eq|].
  split; [intros k Hk; now apply lookup_insert_ne|]. split; [exact Hsize|].
  intros k. rewrite Hsize. split.
  - intros Hk. destruct (decide (k = str (n + 1))) as [->|Hne].
    + exists (n + 1). split; [lia | reflexivity].
    + rewrite lookup_insert_ne in Hk by congruence.
      destruct (proj1 (Hids k) Hk) as (i & Hi & ->). exists i. split; [lia | reflexivity].
  - intros (i & Hi & ->). destruct (decide (i = n + 1)) as [->|Hne].
    + rewrite lookup_insert_eq. eauto.
    + rewrite lookup_insert_ne.
      * apply Hids. exists i. split; [lia | reflexivity].
      * intros Heq. apply str_inj in Heq; lia.
Qed.

Lemma create_user_keeps_ids_witness :
  let '(new_user, users') := create_user "admin" "hash" true ∅ in
  (∅ : gmap string user) !! u_id new_user = None /\
  get_user (u_id new_user) users' = Some new_user /\
  (forall k, k <> u_id new_user -> get_user k users' = get_user k ∅) /\
  size users' = S (size (∅ : gmap string user)) /\
  consecutive_ids users'.
Proof.
  apply (create_user_keeps_ids "admin" "hash" true ∅).
  intros k. rewrite lookup_empty. split.
  - intros [u Hu]. discriminate Hu.
  - intros (i & Hi & _). rewrite map_size_empty in Hi. lia.
Defined.

(** ** CodecCompatibilityClassifier: the container test *)

Lemma lower_app (a b : string) : lower (a +:+ b) = lower a +:+ lower b.
Proof.
  unfold lower. rewrite <- (pystr_chars (pystr _ +:+ pystr _)).
  now rewrite !chars_app, !chars_pystr, map_app.
Qed.

(** X20.  The container test is a substring test on the lower-cased format
    name: a probe result whose video codec is whitelisted and that has no
    audio stream is accepted as soon as its format name contains one of
    [mp4], [webm], [ogg], [mov] anywhere.  A Matroska file, whose format
    name is [matroska,webm], therefore passes the container test. *)
Theorem container_test_is_substring (vi : video_info) (vs : stream)
    (fmt pre post : string) :
  video_stream vi = Some vs ->
  audio_stream vi = None ->
  In (lower (get_str (codec_name vs))) WEB_COMPATIBLE_video ->
  In fmt WEB_COMPATIBLE_containers ->
  format_name (format vi) = Some (pre +:+ fmt +:+ post) ->
  is_web_compatible (Some vi) = Ret true.
Proof.
  intros Hvs Haudio Hcodec Hfmt Hname.
  apply (is_web_compatible_true vi vs Hvs). split; [|split].
  - exists fmt. split; [exact Hfmt|].
    exists (chars (lower pre)), (chars (lower post)).
    rewrite Hname.
    change (get_str (Some (pre +:+ fmt +:+ post))) with (pre +:+ fmt +:+ post).
    rewrite !lower_app, !chars_app.
    do 2 f_equal. unfold WEB_COMPATIBLE_containers in Hfmt. simpl in Hfmt.
    repeat (destruct Hfmt as [<-|Hfmt]; [reflexivity|]). contradiction.
  - exact Hcodec.
  - now left.
Qed.

Lemma container_test_is_substring_witness :
  is_web_compatible
    (Some {| format := {| format_name := Some ("matroska," +:+ "webm" +:+ "")%string;
                          format_filename := None |};
             video_stream := Some {| codec_name := Some "h264"%string |};
             audio_stream := None;
             duration := "0";
             vi_size := 0 |}) = Ret true.
Proof.
  apply (container_test_is_substring _ {| codec_name := Some "h264"%string |}
           "webm" "matroska," "").
  - reflexivity.
  - reflexivity.
  - vm_compute. tauto.
  - vm_compute. tauto.
  - reflexivity.
Defined.

(** ** EpisodeParser: the extension in any case *)

Lemma lower_char_newline (a : ascii) : lower_char a = newline -> a = newline.
Proof. destruct a as [[] [] [] [] [] [] [] []]; vm_compute; intros H; congruence. Qed.

(** At the dot the pattern matches an extension written in any case. *)
Lemma extension_at_dot_any_case (u : list ascii) (pos : nat) :
  In (pystr (map lower_char u)) video_extensions ->
  exists c, m true extension_re ("."%char :: u) pos no_caps
            = Some ((pos + S (length u))%nat, c).
Proof.
  intros Hext. unfold video_extensions in Hext. cbn [In] in Hext.
  repeat (destruct Hext as [Hext|Hext];
    [ apply (f_equal chars) in Hext; rewrite chars_pystr in Hext;
      destruct u as [|a1 [|a2 [|a3 [|a4 [|a5 u]]]]]; try discriminate Hext;
      cbn [map chars list_ascii_of_string] in Hext;
      injection Hext as H1 H2 H3 H4 || injection Hext as H1 H2 H3;
      eexists;
      cbn [extension_re video_extensions lit grp app map chars list_ascii_of_string m
           cls_match lit_prefix length drop];
      unfold char_eq; rewrite <- ?H1, <- ?H2, <- ?H3, <- ?H4;
      cbn; repeat f_equal; lia |]).
  contradiction.
Qed.

Lemma extension_shape_any_case (u : list ascii) :
  In (pystr (map lower_char u)) video_extensions ->
  (3 <= length u)%nat /\ exists l c, u = l ++ [c] /\ c <> newline.
Proof.
  intros Hext. destruct (video_extension_shape _ Hext) as (_ & Hlen & l & c & Hl & Hc).
  rewrite chars_pystr in Hlen, Hl. rewrite length_map in Hlen. split; [exact Hlen|].
  apply map_eq_app in Hl as (l' & r & -> & _ & Hr).
  destruct r as [|c' [|? ?]]; try discriminate Hr. injection Hr as Hr.
  exists l', c'. split; [reflexivity|]. intros ->. apply Hc. rewrite <- Hr. reflexivity.
Qed.

(** Before the last dot it matches nowhere. *)
Lemma extension_not_before_any_case (u : list ascii) (a : ascii) (p2 : list ascii)
    (pos : nat) :
  In (pystr (map lower_char u)) video_extensions ->
  m true extension_re (a :: p2 ++ "."%char :: u) pos no_caps = None.
Proof.
  intros Hext.
  destruct (m true extension_re (a :: p2 ++ "."%char :: u) pos no_caps)
    as [[e c]|] eqn:Hm; [exfalso | reflexivity].
  destruct (m_sound _ _ _ _ _ _ _ Hm) as (w & rest & Hs & Hw & _).
  destruct (extension_re_denotes _ _ Hw) as (alt & u0 & Halt & -> & Hlen & Hpre & Hend).
  destruct (extension_shape_any_case u Hext) as (Hu3 & l & x & Hlast & Hx).
  destruct (video_extension_shape alt Halt) as (Halt3 & _).
  destruct rest as [|r [|? ?]]; simpl in Hend; try discriminate.
  - rewrite app_nil_r in Hs. injection Hs as -> Hs.
    assert (length u0 = length p2 + S (length u))%nat as Hu0
      by (rewrite <- Hs, length_app; reflexivity).
    destruct Halt3 as [H3 | ->].
    + lia.
    + simpl in Hlen. destruct p2; [|simpl in Hu0; lia].
      simpl in Hs. subst u0. cbn in Hpre. discriminate Hpre.
  - apply Ascii.eqb_eq in Hend as ->.
    rewrite Hlast in Hs.
    change (a :: p2 ++ "."%char :: l ++ [x]) with ((a :: p2) ++ ("."%char :: l) ++ [x]) in Hs.
    rewrite app_assoc in Hs.
    apply app_inj_tail in Hs as [_ Hs]. contradiction.
Qed.

Lemma sub_remove_extension_any_case (base ext : string) :
  In (lower ext) video_extensions ->
  sub_remove true extension_re (base +:+ "." +:+ ext) = base.
Proof.
  intros Hext. unfold lower in Hext. unfold sub_remove, finditer.
  rewrite !chars_app. change (chars ".") with ["."%char]. cbn [app].
  rewrite spans_from_skip.
  - destruct (extension_at_dot_any_case (chars ext) (0 + length (chars base)) Hext)
      as (c & Hm).
    cbn [spans_from]. rewrite Hm.
    replace (0 + length (chars base) + S (length (chars ext)) - (0 + length (chars base)) - 1)%nat
      with (length (chars ext)) by lia.
    rewrite spans_from_inside by reflexivity.
    cbn [gaps concat]. unfold substr.
    rewrite drop_0, Nat.sub_0_r. simpl (0 + _)%nat.
    rewrite take_app_length.
    rewrite drop_ge by (rewrite length_app; simpl; lia).
    now rewrite !app_nil_r, pystr_chars.
  - intros p1 a p2 pos' _. now apply extension_not_before_any_case.
Qed.

(** X21.  The extension is removed whatever its case: for every name
    [<base>.<ext>] whose extension is, lower-cased, one of the known video
    extensions ([.MKV], [.Mp4], ...), the title the parser returns is
    [<base>]. *)
Theorem extension_removed_in_any_case (base ext : string) :
  In (lower ext) video_extensions ->
  clean_title (extract_episode_info (base +:+ "." +:+ ext)) = base.
Proof.
  intros Hext. rewrite clean_title_extract. now apply sub_remove_extension_any_case.
Qed.

Lemma extension_removed_in_any_case_witness :
  clean_title (extract_episode_info ("Show S01E02" +:+ "." +:+ "MkV")) = "Show S01E02"%string.
Proof.
  apply (extension_removed_in_any_case "Show S01E02" "MkV").
  vm_compute. tauto.
Defined.

(** ** EpisodeParser: names of the shape [<series> S<n>E<n>] *)











(** ** EpisodeParser: names without white space *)






(** ** The enhanced listing *)





